(** * goerr: errors decorated with an exit code, a temporary flag and display lines

    A shallow embedding of the Go package [goerr] (files [error.go] and
    [unwrap.go]) and the properties of its attribute resolution
    ([ExitCode], [Temporary]) and of its display path ([ErrorLines],
    [optionLines]). *)

From Stdlib Require Import ZArith List String Ascii Bool Lia.
From Stdlib Require Import Permutation Sorted.
Import ListNotations.

Set Warnings "-register-all".

Local Open Scope string_scope.
Local Open Scope Z_scope.

(** ** Run-time panics

    Go code that panics does not return.  An operation that may panic
    returns [Panic] with the message of the run-time, and [Ok] with its
    result otherwise. *)

Inductive result (A : Type) : Type :=
| Ok (a : A)
| Panic (msg : string).

Arguments Ok {A} a.
Arguments Panic {A} msg.

Definition bind {A B : Type} (r : result A) (k : A -> result B) : result B :=
  match r with
  | Ok a => k a
  | Panic msg => Panic msg
  end.

Notation "x <- r ;; k" := (bind r (fun x => k))
  (at level 61, r at next level, right associativity).
Notation "' p <- r ;; k" := (bind r (fun x => match x with p => k end))
  (at level 61, p pattern, r at next level, right associativity).

Definition returns {A : Type} (r : result A) : bool :=
  match r with
  | Ok _ => true
  | Panic _ => false
  end.

(** ** Data model ([error.go]) *)

(** [type optionComment struct { comment string; index int }] *)
Record optionComment : Type := mkOptionComment {
  comment : string;
  index : Z
}.

(** [type Error struct { ... }].  The type of the field [err] is the
    parameter, closed by [error] below. *)
Record Error_ (E : Type) : Type := mkError {
  optionComments : list optionComment;
  options : list string;
  beforeMessage : list string;
  betweenMessageAndOptions : list string;
  afterOptions : list string;
  err : E;
  msg : string;
  exitCode : Z;
  isExitCodeSet : bool;
  temporary : bool;
  isTemporarySet : bool
}.

Arguments mkError {E}.
Arguments optionComments {E}.
Arguments options {E}.
Arguments beforeMessage {E}.
Arguments betweenMessageAndOptions {E}.
Arguments afterOptions {E}.
Arguments err {E}.
Arguments msg {E}.
Arguments exitCode {E}.
Arguments isExitCodeSet {E}.
Arguments temporary {E}.
Arguments isTemporarySet {E}.

(** A value of Go's interface type [error], as the type switches of
    [unwrap.go] tell them apart: the nil interface; a [*Error], whose
    pointer may itself be nil; an [Error] held by value (its methods have
    value receivers, so it is an [error] too); and a value of a type from
    outside the package, described by the methods it has: [Error()] always,
    [ExitCode()], [Temporary()] and [Unwrap()] when present.

    The wrapped error is a subterm, so chains of wrapped errors are finite
    here; chains through pointers that loop are treated in section [Walk]
    below. *)
Inductive error : Type :=
| nil_error
| ptr_Error (p : option (Error_ error))
| val_Error (e : Error_ error)
| foreign (text : string) (exitCoder : option Z) (temporaryer : option bool)
          (unwrapper : option error).

Abbreviation Error := (Error_ error).

(** The zero value of the struct, [Error{}]. *)
Definition zero_Error : Error :=
  {| optionComments := []; options := []; beforeMessage := [];
     betweenMessageAndOptions := []; afterOptions := []; err := nil_error;
     msg := ""; exitCode := 0; isExitCodeSet := false;
     temporary := false; isTemporarySet := false |}.

(** ** Attribute resolution ([unwrap.go], and the methods of [error.go]) *)

(** The body of the method [Error.ExitCode], over the free-standing
    [ExitCode] it calls. *)
Definition ExitCode_method (ExitCode : error -> Z) (e : Error) : Z :=
  if isExitCodeSet e then exitCode e else ExitCode (err e).

(** [unwrapExitCode] loops over [err]; the only arm that continues is the
    [unwrapper] one, with the unwrap target.  The [exitCoder] arm calls the
    method [ExitCode()] of the value: for an [Error] held by value that is
    [Error.ExitCode]. *)
Fixpoint unwrapExitCode (err0 : error) : Z * bool :=
  match err0 with
  | nil_error => (0, false)
  | ptr_Error None => (0, false)
  | ptr_Error (Some tv) => (exitCode tv, isExitCodeSet tv)
  | val_Error tv => (ExitCode_method (fun w => fst (unwrapExitCode w)) tv, true)
  | foreign _ (Some code) _ _ => (code, true)
  | foreign _ None _ (Some next) => unwrapExitCode next
  | foreign _ None _ None => (0, false)
  end.

Definition ExitCode (err0 : error) : Z := fst (unwrapExitCode err0).

Definition Error_ExitCode : Error -> Z := ExitCode_method ExitCode.

(** The body of the method [Error.Temporary]. *)
Definition Temporary_method (Temporary : error -> bool) (e : Error) : bool :=
  if isTemporarySet e then temporary e else Temporary (err e).

(** [unwrapTemporary]: the same loop, over the [temporaryer] capability. *)
Fixpoint unwrapTemporary (err0 : error) : bool * bool :=
  match err0 with
  | nil_error => (false, false)
  | ptr_Error None => (false, false)
  | ptr_Error (Some tv) => (temporary tv, isTemporarySet tv)
  | val_Error tv => (Temporary_method (fun w => fst (unwrapTemporary w)) tv, true)
  | foreign _ _ (Some t) _ => (t, true)
  | foreign _ _ None (Some next) => unwrapTemporary next
  | foreign _ _ None None => (false, false)
  end.

Definition Temporary (err0 : error) : bool := fst (unwrapTemporary err0).

Definition Error_Temporary : Error -> bool := Temporary_method Temporary.

(** [func (e Error) Unwrap() error] *)
Definition Error_Unwrap (e : Error) : error := err e.

(** ** Constructors and setters ([error.go])

    A [*Error] is an [option Error], [None] being the nil pointer.  The
    setters have pointer receivers: they update the struct pointed to and
    return the pointer, so the result below is the struct after the call.
    [fmt.Sprintf] is outside the package: [New] and [WithMessage] take the
    formatted message. *)

Definition MaybeWrap (err0 : error) : option Error :=
  match err0 with
  | nil_error => None
  | _ => Some {| optionComments := []; options := []; beforeMessage := [];
                 betweenMessageAndOptions := []; afterOptions := [];
                 err := err0; msg := ""; exitCode := 0;
                 isExitCodeSet := false; temporary := false;
                 isTemporarySet := false |}
  end.

Definition New (formatted : string) : option Error :=
  Some {| optionComments := []; options := []; beforeMessage := [];
          betweenMessageAndOptions := []; afterOptions := [];
          err := nil_error; msg := formatted; exitCode := 0;
          isExitCodeSet := false; temporary := false;
          isTemporarySet := false |}.

(** The method body of a setter runs on a non-nil receiver only: every
    setter starts with [if e == nil { return nil }]. *)
Definition on_receiver (e : option Error) (body : Error -> Error) : option Error :=
  match e with
  | None => None
  | Some e => Some (body e)
  end.

Definition WithExitCode (e : option Error) (code : Z) : option Error :=
  on_receiver e (fun e =>
    {| optionComments := optionComments e; options := options e;
       beforeMessage := beforeMessage e;
       betweenMessageAndOptions := betweenMessageAndOptions e;
       afterOptions := afterOptions e; err := err e; msg := msg e;
       exitCode := code; isExitCodeSet := true;
       temporary := temporary e; isTemporarySet := isTemporarySet e |}).

Definition WithTemporary (e : option Error) (t : bool) : option Error :=
  on_receiver e (fun e =>
    {| optionComments := optionComments e; options := options e;
       beforeMessage := beforeMessage e;
       betweenMessageAndOptions := betweenMessageAndOptions e;
       afterOptions := afterOptions e; err := err e; msg := msg e;
       exitCode := exitCode e; isExitCodeSet := isExitCodeSet e;
       temporary := t; isTemporarySet := true |}).

Definition WithLinesAfterOptions (e : option Error) (lines : list string) : option Error :=
  on_receiver e (fun e =>
    {| optionComments := optionComments e; options := options e;
       beforeMessage := beforeMessage e;
       betweenMessageAndOptions := betweenMessageAndOptions e;
       afterOptions := afterOptions e ++ lines; err := err e; msg := msg e;
       exitCode := exitCode e; isExitCodeSet := isExitCodeSet e;
       temporary := temporary e; isTemporarySet := isTemporarySet e |}).

(** [append(e.afterOptions, line)] is [append(e.afterOptions, lines...)] at
    the one-line slice; the same holds for the next two one-line setters. *)
Definition WithLineAfterOptions (e : option Error) (line : string) : option Error :=
  WithLinesAfterOptions e [line].

Definition WithLinesBeforeMessage (e : option Error) (lines : list string) : option Error :=
  on_receiver e (fun e =>
    {| optionComments := optionComments e; options := options e;
       beforeMessage := beforeMessage e ++ lines;
       betweenMessageAndOptions := betweenMessageAndOptions e;
       afterOptions := afterOptions e; err := err e; msg := msg e;
       exitCode := exitCode e; isExitCodeSet := isExitCodeSet e;
       temporary := temporary e; isTemporarySet := isTemporarySet e |}).

Definition WithLineBeforeMessage (e : option Error) (line : string) : option Error :=
  WithLinesBeforeMessage e [line].

Definition WithLinesBetweenMessageAndOption (e : option Error) (lines : list string) : option Error :=
  on_receiver e (fun e =>
    {| optionComments := optionComments e; options := options e;
       beforeMessage := beforeMessage e;
       betweenMessageAndOptions := betweenMessageAndOptions e ++ lines;
       afterOptions := afterOptions e; err := err e; msg := msg e;
       exitCode := exitCode e; isExitCodeSet := isExitCodeSet e;
       temporary := temporary e; isTemporarySet := isTemporarySet e |}).

Definition WithLineBetweenMessageAndOption (e : option Error) (line : string) : option Error :=
  WithLinesBetweenMessageAndOption e [line].

Definition WithMessage (e : option Error) (formatted : string) : option Error :=
  on_receiver e (fun e =>
    {| optionComments := optionComments e; options := options e;
       beforeMessage := beforeMessage e;
       betweenMessageAndOptions := betweenMessageAndOptions e;
       afterOptions := afterOptions e; err := err e; msg := formatted;
       exitCode := exitCode e; isExitCodeSet := isExitCodeSet e;
       temporary := temporary e; isTemporarySet := isTemporarySet e |}).

Definition WithOptionComment (e : option Error) (i : Z) (c : string) : option Error :=
  on_receiver e (fun e =>
    {| optionComments := optionComments e ++ [{| comment := c; index := i |}];
       options := options e; beforeMessage := beforeMessage e;
       betweenMessageAndOptions := betweenMessageAndOptions e;
       afterOptions := afterOptions e; err := err e; msg := msg e;
       exitCode := exitCode e; isExitCodeSet := isExitCodeSet e;
       temporary := temporary e; isTemporarySet := isTemporarySet e |}).

Definition WithOptions (e : option Error) (opts : list string) : option Error :=
  on_receiver e (fun e =>
    {| optionComments := optionComments e; options := opts;
       beforeMessage := beforeMessage e;
       betweenMessageAndOptions := betweenMessageAndOptions e;
       afterOptions := afterOptions e; err := err e; msg := msg e;
       exitCode := exitCode e; isExitCodeSet := isExitCodeSet e;
       temporary := temporary e; isTemporarySet := isTemporarySet e |}).

Definition WithWrap (e : option Error) (err0 : error) : option Error :=
  on_receiver e (fun e =>
    {| optionComments := optionComments e; options := options e;
       beforeMessage := beforeMessage e;
       betweenMessageAndOptions := betweenMessageAndOptions e;
       afterOptions := afterOptions e; err := err0; msg := msg e;
       exitCode := exitCode e; isExitCodeSet := isExitCodeSet e;
       temporary := temporary e; isTemporarySet := isTemporarySet e |}).

(** ** The standard library the display path calls

    [len], [strings.Join] and [strings.Repeat] on Go strings, which are
    byte sequences.  [strings.Repeat] panics on a negative count.  (It
    also panics when the length of its result overflows [int]; no string
    that fits in memory reaches that, and lengths are unbounded here.) *)

Definition len (s : string) : Z := Z.of_nat (String.length s).

Definition strings_Join (elems : list string) (sep : string) : string :=
  String.concat sep elems.

Fixpoint copies (s : string) (n : nat) : string :=
  match n with
  | O => ""
  | S k => s ++ copies s k
  end.

Definition strings_Repeat (s : string) (count : Z) : result string :=
  if count <? 0 then Panic "strings: negative Repeat count"
  else Ok (copies s (Z.to_nat count)).

(** [x[i]] on a slice: a run-time panic out of range. *)
Definition at_index {A : Type} (x : list A) (i : Z) : result A :=
  if i <? 0 then Panic "index out of range"
  else match nth_error x (Z.to_nat i) with
       | Some a => Ok a
       | None => Panic "index out of range"
       end.

(** [optionCommentSlice.Less]: [x[i].index > x[j].index], on the two
    elements compared. *)
Definition Less (xi xj : optionComment) : bool := index xi >? index xj.

(** The order [sort.Sort] establishes: no element is [Less] than one
    placed before it. *)
Definition in_order (a b : optionComment) : Prop := Less b a = false.

(** [sort.Sort] belongs to Go's standard library.  Its documentation
    promises that it sorts the data in ascending order as determined by
    [Less], by calls to [Less] and [Swap] only, and states that the sort is
    not guaranteed to be stable.  [sort x] stands for the content of an
    [optionCommentSlice] after the call, and [sort_contract] is what the
    documentation promises of it. *)
Definition sort_contract (sort : list optionComment -> list optionComment) : Prop :=
  (forall x, Permutation x (sort x)) /\
  (forall x, StronglySorted in_order (sort x)).

(** *** Two implementations of [sort.Sort] on short slices

    On a slice of at most 12 elements [sort.Sort] runs [insertionSort]
    since Go 1.19, and ran it after one pass of a shell sort up to
    Go 1.18. *)

(** The inner loop of Go's [insertionSort],
    [for j := i; j > a && data.Less(j, j-1); j-- { data.Swap(j, j-1) }]:
    [before] is the part of the slice before position [j], last element
    first, and [xj] the element that moves down. *)
Fixpoint sink (xj : optionComment) (before : list optionComment) : list optionComment :=
  match before with
  | [] => [xj]
  | xj1 :: before' =>
      if Less xj xj1 then xj1 :: sink xj before' else xj :: before
  end.

(** The outer loop, [for i := a + 1; i < b; i++]: [done] is the sorted
    part, last element first. *)
Fixpoint insertionSort_from (done rest : list optionComment) : list optionComment :=
  match rest with
  | [] => rev done
  | xi :: rest' => insertionSort_from (sink xi done) rest'
  end.

Definition insertionSort (x : list optionComment) : list optionComment :=
  insertionSort_from [] x.

(** The pass that came before the insertion sort in the [quickSort] of the
    Go releases up to 1.18, on slices of at most 12 elements:
    [for i := a + 6; i < b; i++ { if data.Less(i, i-6) { data.Swap(i, i-6) } }].
    On such a slice position [i-6] is among the first six and is visited
    once, so the pass goes through the first six elements [lo] and the
    others [hi] side by side. *)
Fixpoint gapPass (lo hi : list optionComment) : list optionComment * list optionComment :=
  match lo, hi with
  | xi6 :: lo', xi :: hi' =>
      let '(l, h) := gapPass lo' hi' in
      if Less xi xi6 then (xi :: l, xi6 :: h) else (xi6 :: l, xi :: h)
  | _, _ => (lo, hi)
  end.

Definition shellInsertionSort (x : list optionComment) : list optionComment :=
  let '(l, h) := gapPass (firstn 6 x) (skipn 6 x) in
  insertionSort (l ++ h).

(** ** The display path ([error.go]) *)

Section Display.

(** [sort.Sort(optionCommentSlice(ocs))] *)
Variable sort_Sort : list optionComment -> list optionComment.

(** The first loop of [optionLines]: [indices] and [length] after the
    options [opts], from their values before. *)
Fixpoint option_indices (opts : list string) (indices : list Z) (length : Z)
  : list Z * Z :=
  match opts with
  | [] => (indices, length)
  | opt :: opts' =>
      let length := length + (len opt + 1) in
      option_indices opts' (indices ++ [length])%list length
  end.

(** The body of the second loop: the line of one option comment. *)
Definition comment_line (optCount : Z) (indices : list Z) (length : Z)
    (oc : optionComment) : result string :=
  if (index oc <? 0) || (index oc >=? optCount) then
    prefix <- strings_Repeat " " length ;;
    Ok (prefix ++ "^ " ++ comment oc)
  else
    start <- at_index indices (index oc) ;;
    spaces <- strings_Repeat " " start ;;
    let prefix := spaces ++ "^" in
    tildes <- (if index oc =? optCount - 1 then
                 strings_Repeat "~" ((length - start) - 2)
               else
                 next <- at_index indices (index oc + 1) ;;
                 strings_Repeat "~" (next - start - 2)) ;;
    let prefix := prefix ++ tildes in
    Ok (prefix ++ " " ++ comment oc).

(** The second loop: [lines] after the comments [ocs]. *)
Fixpoint comment_lines (optCount : Z) (indices : list Z) (length : Z)
    (ocs : list optionComment) (lines : list string) : result (list string) :=
  match ocs with
  | [] => Ok lines
  | oc :: ocs' =>
      line <- comment_line optCount indices length oc ;;
      comment_lines optCount indices length ocs' (lines ++ [line])%list
  end.

(** [optionLines(opts, ocs...)].  The caller passes its slice with
    [...], so [ocs] is that slice and not a copy, and [sort.Sort] sorts
    it in place: the result is the lines together with the content of
    the caller's slice when the function returns. *)
Definition optionLines (opts : list string) (ocs : list optionComment)
  : result (list string * list optionComment) :=
  let optCount := Z.of_nat (List.length opts) in
  if optCount =? 0 then Ok ([], ocs)
  else
    let lines := [strings_Join opts " "] in
    if Z.of_nat (List.length ocs) =? 0 then Ok (lines, ocs)
    else
      let '(indices, length) := option_indices opts [0] 0 in
      let ocs := sort_Sort ocs in
      lines <- comment_lines optCount indices length ocs lines ;;
      Ok (lines, ocs).

(** The body of [Error.ErrorLines], over the method [Error()] of the
    wrapped error.  The receiver is a copy of the struct, whose slices
    share their elements with the original: the second component is the
    struct after the call. *)
Definition ErrorLines_method
    (Error_of : error -> result (string * error)) (e : Error)
  : result (list string * Error) :=
  let lines := beforeMessage e in
  '(lines, err') <-
    (if negb (msg e =? "")%string then
       match err e with
       | nil_error => Ok ((lines ++ [msg e])%list, err e)
       | _ => '(text, err') <- Error_of (err e) ;;
              Ok ((lines ++ [(msg e ++ ": " ++ text)%string])%list, err')
       end
     else
       match err e with
       | nil_error =>
           Ok ((lines ++ ["error without message or wrapped error"])%list, err e)
       | _ => '(text, err') <- Error_of (err e) ;;
              Ok ((lines ++ [text])%list, err')
       end) ;;
  let lines := (lines ++ betweenMessageAndOptions e)%list in
  '(optlines, ocs') <- optionLines (options e) (optionComments e) ;;
  let lines := (lines ++ optlines)%list in
  let lines := (lines ++ afterOptions e)%list in
  Ok (lines,
      {| optionComments := ocs'; options := options e;
         beforeMessage := beforeMessage e;
         betweenMessageAndOptions := betweenMessageAndOptions e;
         afterOptions := afterOptions e; err := err'; msg := msg e;
         exitCode := exitCode e; isExitCodeSet := isExitCodeSet e;
         temporary := temporary e; isTemporarySet := isTemporarySet e |}).

(** The body of [Error.Error]. *)
Definition Error_method
    (Error_of : error -> result (string * error)) (e : Error)
  : result (string * Error) :=
  '(lines, e') <- ErrorLines_method Error_of e ;;
  Ok (strings_Join lines (String "010" ""), e').

(** [err.Error()] through the interface: the text, and the value after
    the call.  The methods of [Error] have value receivers, so a call
    through a nil [*Error], like a call on the nil interface, panics. *)
Fixpoint error_Error (err0 : error) : result (string * error) :=
  match err0 with
  | nil_error => Panic "invalid memory address or nil pointer dereference"
  | ptr_Error None =>
      Panic "value method goerr.Error.Error called using nil *Error pointer"
  | ptr_Error (Some e) =>
      '(text, e') <- Error_method error_Error e ;;
      Ok (text, ptr_Error (Some e'))
  | val_Error e =>
      '(text, e') <- Error_method error_Error e ;;
      Ok (text, val_Error e')
  | foreign text _ _ _ => Ok (text, err0)
  end.

Definition Error_ErrorLines : Error -> result (list string * Error) :=
  ErrorLines_method error_Error.

Definition Error_Error : Error -> result (string * Error) :=
  Error_method error_Error.

End Display.

(** ** The resolution loop, one iteration at a time

    [unwrapExitCode] and [unwrapTemporary] are the same [for] loop around
    the same type switch.  Here the loop runs on values [N] of any kind,
    reached through pointers or not, so that a chain of unwrap targets may
    come back to a value it has left. *)

Section Walk.

Context {A N : Type}.

(** What the type switch finds at [err]: the arm taken, with the results
    of the method calls that arm makes. *)
Variant link : Type :=
| link_nil
| link_Error (tv : option (A * bool))
| link_capable (a : A)
| link_unwrapper (next : N)
| link_default.

(** The zero value of the attribute, and the type switch. *)
Variable zero : A.
Variable inspect : N -> link.

(** One iteration of the loop: the values returned, or the new [err]. *)
Definition iteration (err0 : N) : (A * bool) + N :=
  match inspect err0 with
  | link_nil => inl (zero, false)
  | link_Error None => inl (zero, false)
  | link_Error (Some (a, isSet)) => inl (a, isSet)
  | link_capable a => inl (a, true)
  | link_unwrapper next => inr next
  | link_default => inl (zero, false)
  end.

(** The loop, cut after [fuel] iterations. *)
Fixpoint walk (fuel : nat) (err0 : N) : option (A * bool) :=
  match fuel with
  | O => None
  | S fuel' =>
      match iteration err0 with
      | inl r => Some r
      | inr next => walk fuel' next
      end
  end.

(** The values [err] takes in the first [n] iterations. *)
Fixpoint visited (n : nat) (err0 : N) : list N :=
  match n with
  | O => []
  | S n' =>
      err0 :: match iteration err0 with
              | inl _ => []
              | inr next => visited n' next
              end
  end.

(** The chain from [err0] is finite: it reaches, [n] unwraps away, a value
    at which the loop returns. *)
Inductive chain_ends : nat -> N -> Prop :=
| chain_ends_here err0 r :
    iteration err0 = inl r -> chain_ends O err0
| chain_ends_next n err0 next :
    iteration err0 = inr next -> chain_ends n next -> chain_ends (S n) err0.

End Walk.

Arguments link : clear implicits.

(** The type switch of [unwrapExitCode] on the error values. *)
Definition inspectExitCode (err0 : error) : link Z error :=
  match err0 with
  | nil_error => link_nil
  | ptr_Error None => link_Error None
  | ptr_Error (Some tv) => link_Error (Some (exitCode tv, isExitCodeSet tv))
  | val_Error tv => link_capable (Error_ExitCode tv)
  | foreign _ (Some code) _ _ => link_capable code
  | foreign _ None _ (Some next) => link_unwrapper next
  | foreign _ None _ None => link_default
  end.

(** The type switch of [unwrapTemporary] on the error values. *)
Definition inspectTemporary (err0 : error) : link bool error :=
  match err0 with
  | nil_error => link_nil
  | ptr_Error None => link_Error None
  | ptr_Error (Some tv) => link_Error (Some (temporary tv, isTemporarySet tv))
  | val_Error tv => link_capable (Error_Temporary tv)
  | foreign _ _ (Some t) _ => link_capable t
  | foreign _ _ None (Some next) => link_unwrapper next
  | foreign _ _ None None => link_default
  end.

(** The number of unwraps [unwrapExitCode] makes from [err0]. *)
Fixpoint exitCode_hops (err0 : error) : nat :=
  match err0 with
  | foreign _ None _ (Some next) => S (exitCode_hops next)
  | _ => O
  end.

(** The number of unwraps [unwrapTemporary] makes from [err0]. *)
Fixpoint temporary_hops (err0 : error) : nat :=
  match err0 with
  | foreign _ _ None (Some next) => S (temporary_hops next)
  | _ => O
  end.

(** A value whose [Unwrap()] returns the value itself, as after
    [u := &unwrapper{}; u.err = u]: the type switch at the only node. *)
Definition inspect_self {A : Type} (u : unit) : link A unit := link_unwrapper u.

(** The order of the part of the slice that [insertionSort] has sorted,
    read from its last element to its first. *)
Definition ascending : list optionComment -> Prop :=
  StronglySorted (fun a b => index a <= index b).

(** ** Closed forms of what the display path computes *)

(** Dropping the state a call leaves behind. *)
Definition value {A S : Type} (r : result (A * S)) : result A :=
  match r with
  | Ok (a, _) => Ok a
  | Panic m => Panic m
  end.

(** The column of the joined line at which option [i] starts. *)
Fixpoint start_column (opts : list string) (i : nat) : Z :=
  match opts, i with
  | opt :: opts', S i' => len opt + 1 + start_column opts' i'
  | _, _ => 0
  end.

(** The guard of the second loop of [optionLines], negated. *)
Definition in_range (opts : list string) (oc : optionComment) : bool :=
  (0 <=? index oc) && (index oc <? Z.of_nat (List.length opts)).

(** The option a comment in range points at. *)
Definition option_at (opts : list string) (oc : optionComment) : string :=
  nth (Z.to_nat (index oc)) opts "".

(** A comment in range that points at an option which is the empty
    string. *)
Definition points_at_empty (opts : list string) (oc : optionComment) : bool :=
  in_range opts oc && (option_at opts oc =? "")%string.

(** The line for a comment that does not point at an empty option: under
    an option, a caret at its start column and a tilde for each further
    character of the option; out of range, a caret at the column where a
    further option would start, after the joined line and a space. *)
Definition underline (opts : list string) (oc : optionComment) : string :=
  if in_range opts oc then
    copies " " (Z.to_nat (start_column opts (Z.to_nat (index oc))))
    ++ "^" ++ copies "~" (String.length (option_at opts oc) - 1)
    ++ " " ++ comment oc
  else
    copies " " (S (String.length (strings_Join opts " ")))
    ++ "^ " ++ comment oc.

(** [e.err.Error()] where [ErrorLines] calls it, that is when [e.err] is
    not nil. *)
Definition wrapped_Error (sort_Sort : list optionComment -> list optionComment)
    (e : Error) : result (option string * error) :=
  match err e with
  | nil_error => Ok (None, nil_error)
  | w => '(text, w') <- error_Error sort_Sort w ;; Ok (Some text, w')
  end.

(** The message line of [ErrorLines], from the message and the text of
    the wrapped error when there is one. *)
Definition message_line (message : string) (wrapped : option string) : string :=
  match (message =? "")%string, wrapped with
  | false, Some text => message ++ ": " ++ text
  | false, None => message
  | true, Some text => text
  | true, None => "error without message or wrapped error"
  end.

(** ** The renderer in the words of the specification

    Section 4.2 of the specification, for comparison with [optionLines]:
    the width of a token is the distance to the start of the next token,
    or to the end of the joined line for the last token; a line has
    spaces up to the start column, a caret, tildes for the width minus
    two, a space and the comment, or, out of range, as many spaces as the
    joined line is long, then the caret; and the annotations are sorted by
    descending index, those of equal index staying in insertion order. *)

Definition spec_tokenWidth (tokens : list string) (i : nat) : Z :=
  if (S i =? List.length tokens)%nat then
    len (strings_Join tokens " ") - start_column tokens i
  else
    start_column tokens (S i) - start_column tokens i.

Definition spec_line (tokens : list string) (ann : optionComment) : string :=
  if in_range tokens ann then
    let i := Z.to_nat (index ann) in
    copies " " (Z.to_nat (start_column tokens i))
    ++ "^" ++ copies "~" (Z.to_nat (spec_tokenWidth tokens i - 2))
    ++ " " ++ comment ann
  else
    copies " " (String.length (strings_Join tokens " "))
    ++ "^ " ++ comment ann.

(** [ann] was inserted before all of [sorted]: it goes after the
    annotations of greater index and before those of equal index. *)
Fixpoint spec_place (ann : optionComment) (sorted : list optionComment)
  : list optionComment :=
  match sorted with
  | [] => [ann]
  | b :: sorted' =>
      if index b >? index ann then b :: spec_place ann sorted'
      else ann :: sorted
  end.

Definition spec_order (anns : list optionComment) : list optionComment :=
  fold_right spec_place [] anns.

Definition spec_Render (tokens : list string) (anns : list optionComment)
  : list string :=
  match tokens with
  | [] => []
  | _ => strings_Join tokens " " :: map (spec_line tokens) (spec_order anns)
  end.

(** ** Values used in the examples *)

(** The example of the README: the options and the comments in the order
    of the calls to [WithOptionComment]. *)
Definition usage_options : list string := ["zero"; "--one"; "two"; "three"].

Definition usage_comments : list optionComment :=
  [ {| comment := "cannot do this operation"; index := 3 |};
    {| comment := "cannot find this file"; index := 2 |};
    {| comment := "for this option"; index := 1 |} ].

(** The same comments in the order in which the specification lists
    them. *)
Definition usage_comments_ascending : list optionComment :=
  [ {| comment := "for this option"; index := 1 |};
    {| comment := "cannot find this file"; index := 2 |};
    {| comment := "cannot do this operation"; index := 3 |} ].

(** Seven comments on three options: six on the first option, then one on
    the second. *)
Definition tied_options : list string := ["a"; "b"; "c"].

Definition tied_comments : list optionComment :=
  [ {| comment := "first"; index := 0 |};
    {| comment := "second"; index := 0 |};
    {| comment := "third"; index := 0 |};
    {| comment := "fourth"; index := 0 |};
    {| comment := "fifth"; index := 0 |};
    {| comment := "sixth"; index := 0 |};
    {| comment := "seventh"; index := 1 |} ].

(** Options of which the second is the empty string, as after
    [cmd "" x] on a command line, and a comment on it. *)
Definition options_with_empty : list string := ["cmd"; ""; "x"].

Definition comment_on_empty : list optionComment :=
  [ {| comment := "must not be empty"; index := 1 |} ].

(** The error of the test "with options with comments" of
    [error_test.go], as the setters leave it. *)
Definition commented_error : option Error :=
  WithLineAfterOptions
    (WithOptionComment
       (WithOptionComment
          (WithOptionComment
             (WithOptions
                (WithLineBetweenMessageAndOption
                   (WithLineBeforeMessage (New "some error message")
                      "optional lines before the error message")
                   "Some lines between message and options")
                ["zero"; "one"; "--two"; "three"])
             1 "cannot do sub-command")
          3 "invalid argument")
       2 "for this option")
    "Zero or more additional lines".

(** That error as a struct, and the struct with its comments sorted. *)
Definition commented : Error :=
  {| optionComments :=
       [ {| comment := "cannot do sub-command"; index := 1 |};
         {| comment := "invalid argument"; index := 3 |};
         {| comment := "for this option"; index := 2 |} ];
     options := ["zero"; "one"; "--two"; "three"];
     beforeMessage := ["optional lines before the error message"];
     betweenMessageAndOptions := ["Some lines between message and options"];
     afterOptions := ["Zero or more additional lines"];
     err := nil_error; msg := "some error message";
     exitCode := 0; isExitCodeSet := false;
     temporary := false; isTemporarySet := false |}.

Definition commented_sorted : Error :=
  {| optionComments :=
       [ {| comment := "invalid argument"; index := 3 |};
         {| comment := "for this option"; index := 2 |};
         {| comment := "cannot do sub-command"; index := 1 |} ];
     options := ["zero"; "one"; "--two"; "three"];
     beforeMessage := ["optional lines before the error message"];
     betweenMessageAndOptions := ["Some lines between message and options"];
     afterOptions := ["Zero or more additional lines"];
     err := nil_error; msg := "some error message";
     exitCode := 0; isExitCodeSet := false;
     temporary := false; isTemporarySet := false |}.

(** The value of the specification's example for [Lines()]. *)
Definition five_lines : Error :=
  {| optionComments := []; options := []; beforeMessage := ["L0"];
     betweenMessageAndOptions := ["L1"]; afterOptions := ["L2"; "L3"];
     err := nil_error; msg := "M"; exitCode := 0; isExitCodeSet := false;
     temporary := false; isTemporarySet := false |}.

(** An error with both overrides set, three links above an error that
    declares other values. *)
Definition deep_override : Error :=
  {| optionComments := []; options := []; beforeMessage := [];
     betweenMessageAndOptions := []; afterOptions := [];
     err := foreign "outer" None None
              (Some (foreign "middle" None None
                 (Some (foreign "inner" (Some 42) (Some false) None))));
     msg := "cannot configure"; exitCode := 13; isExitCodeSet := true;
     temporary := true; isTemporarySet := true |}.

(** ** The methods of [optionCommentSlice] ([error.go])

    [sort.Sort] reaches the slice through these three methods only. *)

(** [func (s optionCommentSlice) Len() int { return len(s) }] *)
Definition optionCommentSlice_Len (s : list optionComment) : Z :=
  Z.of_nat (List.length s).

(** [func (x optionCommentSlice) Less(i, j int) bool
       { return x[i].index > x[j].index }] *)
Definition optionCommentSlice_Less (x : list optionComment) (i j : Z)
  : result bool :=
  xi <- at_index x i ;;
  xj <- at_index x j ;;
  Ok (index xi >? index xj).

(** [x[i] = v] at a position that is in range. *)
Fixpoint store {A : Type} (x : list A) (i : nat) (v : A) : list A :=
  match x, i with
  | [], _ => []
  | _ :: x', O => v :: x'
  | a :: x', S i' => a :: store x' i' v
  end.

(** [func (x optionCommentSlice) Swap(i, j int) { x[i], x[j] = x[j], x[i] }]:
    both elements are read, [x[j]] first, before either is written; the
    result is the content of the slice after the call. *)
Definition optionCommentSlice_Swap (x : list optionComment) (i j : Z)
  : result (list optionComment) :=
  xj <- at_index x j ;;
  xi <- at_index x i ;;
  Ok (store (store x (Z.to_nat i) xj) (Z.to_nat j) xi).

(** ** Notions used in the further properties *)


(** A field of an override that is not set holds its zero value. *)
Definition overrides_consistent (e : Error) : Prop :=
  (isExitCodeSet e = false -> exitCode e = 0) /\
  (isTemporarySet e = false -> temporary e = false).

(** The same for the struct behind a [*Error], if any. *)
Definition consistent (p : option Error) : Prop :=
  match p with
  | None => True
  | Some e => overrides_consistent e
  end.

(** The column of the caret on the line of a comment. *)
Definition caret_column (opts : list string) (oc : optionComment) : Z :=
  if in_range opts oc then start_column opts (Z.to_nat (index oc))
  else len (strings_Join opts " ") + 1.

(** The number of lines [optionLines] returns. *)
Definition option_line_count (opts : list string) (ocs : list optionComment)
  : nat :=
  match opts with
  | [] => O
  | _ => S (List.length ocs)
  end.

(** [p.ErrorLines()] on a [*Error], without the state it leaves: the
    method has a value receiver, so the call panics on the nil pointer. *)
Definition ptr_ErrorLines (sort_Sort : list optionComment -> list optionComment)
    (p : option Error) : result (list string) :=
  match p with
  | None =>
      Panic "value method goerr.Error.ErrorLines called using nil *Error pointer"
  | Some e => value (Error_ErrorLines sort_Sort e)
  end.

(** [p.Error()] on a [*Error], likewise. *)
Definition ptr_Error_text (sort_Sort : list optionComment -> list optionComment)
    (p : option Error) : result string :=
  match p with
  | None =>
      Panic "value method goerr.Error.Error called using nil *Error pointer"
  | Some e => value (Error_Error sort_Sort e)
  end.

(** The pointer [p] resolves to the same exit code and temporary flag as
    the struct [e], through the entry points and through the methods. *)
Definition same_attributes (e : Error) (p : option Error) : Prop :=
  ExitCode (ptr_Error p) = ExitCode (ptr_Error (Some e)) /\
  Temporary (ptr_Error p) = Temporary (ptr_Error (Some e)) /\
  option_map Error_ExitCode p = Some (Error_ExitCode e) /\
  option_map Error_Temporary p = Some (Error_Temporary e).

(** ** Chains of wrapped errors

    The chain of an error is a matter of the values, not of the loop that
    follows it: the unwrap target of a value is what its [Unwrap()]
    returns, for a value that the type switch sends to the [unwrapper]
    arm. *)

Definition unwrap_target {A N : Type} (inspect : N -> link A N) (err0 : N)
  : option N :=
  match inspect err0 with
  | link_unwrapper next => Some next
  | _ => None
  end.

(** [err0 :: rest] is the chain from [err0]: each value is followed by its
    unwrap target, and the last one has none.  Such a chain is finite. *)
Fixpoint is_chain {A N : Type} (inspect : N -> link A N) (err0 : N)
    (rest : list N) : Prop :=
  match rest with
  | [] => unwrap_target inspect err0 = None
  | next :: rest' =>
      unwrap_target inspect err0 = Some next /\ is_chain inspect next rest'
  end.

(** The last value of the chain [err0 :: rest]. *)
Fixpoint chain_end {N : Type} (err0 : N) (rest : list N) : N :=
  match rest with
  | [] => err0
  | next :: rest' => chain_end next rest'
  end.

(** The values below an error value, as far as [unwrapExitCode] (resp.
    [unwrapTemporary]) has to go: through the errors that have [Unwrap()]
    and not the method looked for. *)
Fixpoint exitCode_chain (err0 : error) : list error :=
  match err0 with
  | foreign _ None _ (Some next) => next :: exitCode_chain next
  | _ => []
  end.

Fixpoint temporary_chain (err0 : error) : list error :=
  match err0 with
  | foreign _ _ None (Some next) => next :: temporary_chain next
  | _ => []
  end.

(** Three values in a store, the first two with [Unwrap()] only, pointing
    to the next, the third with [ExitCode()]; every other address holds a
    value with none of the methods. *)
Definition inspect_store (address : nat) : link Z nat :=
  match address with
  | 0%nat => link_unwrapper 1%nat
  | 1%nat => link_unwrapper 2%nat
  | 2%nat => link_capable 42
  | _ => link_default
  end.

(** The number of spaces a line starts with. *)
Fixpoint leading_spaces (line : string) : nat :=
  match line with
  | String " " line' => S (leading_spaces line')
  | _ => O
  end.

(** * Properties *)

(** ** Attribute resolution *)

(** On a non-nil [*Error] the loop returns the two fields as they are. *)
Lemma unwrapExitCode_ptr (e : Error) :
  unwrapExitCode (ptr_Error (Some e)) = (exitCode e, isExitCodeSet e).
Proof. reflexivity. Qed.

Lemma unwrapTemporary_ptr (e : Error) :
  unwrapTemporary (ptr_Error (Some e)) = (temporary e, isTemporarySet e).
Proof. reflexivity. Qed.

(** On an [Error] held by value the [exitCoder] arm calls the method. *)
Lemma unwrapExitCode_val (e : Error) :
  unwrapExitCode (val_Error e) = (Error_ExitCode e, true).
Proof. reflexivity. Qed.

Lemma unwrapTemporary_val (e : Error) :
  unwrapTemporary (val_Error e) = (Error_Temporary e, true).
Proof. reflexivity. Qed.

Lemma Error_ExitCode_unset (e : Error) :
  isExitCodeSet e = false -> Error_ExitCode e = ExitCode (err e).
Proof.
  intros Hunset. unfold Error_ExitCode, ExitCode_method. now rewrite Hunset.
Qed.

Lemma Error_Temporary_unset (e : Error) :
  isTemporarySet e = false -> Error_Temporary e = Temporary (err e).
Proof.
  intros Hunset. unfold Error_Temporary, Temporary_method. now rewrite Hunset.
Qed.

(** [MaybeWrap] of a non-nil error is a fresh struct around it. *)
Lemma MaybeWrap_fields (w : error) :
  w <> nil_error ->
  exists e, MaybeWrap w = Some e /\ err e = w /\
            exitCode e = 0 /\ isExitCodeSet e = false /\
            temporary e = false /\ isTemporarySet e = false.
Proof.
  intros Hw. destruct w; try congruence; eexists; simpl; repeat split.
Qed.

(** C1, at a failing input: a [*Error] from [MaybeWrap], no override set,
    around an error whose [ExitCode()] is 42 (resp. whose [Temporary()] is
    true).  The wrapped error resolves to 42 (resp. true) and so does the
    method of the [*Error], but the free-standing entry point returns the
    unset field, 0 (resp. false). *)
Theorem ExitCode_drops_wrapped_attribute :
  let dummyExitCoder := foreign "returns exit code: 42" (Some 42) None None in
  let dummyTemporaryer := foreign "returns temporary: true" None (Some true) None in
  (ExitCode dummyExitCoder = 42 /\
   option_map Error_ExitCode (MaybeWrap dummyExitCoder) = Some 42 /\
   ExitCode (ptr_Error (MaybeWrap dummyExitCoder)) = 0) /\
  (Temporary dummyTemporaryer = true /\
   option_map Error_Temporary (MaybeWrap dummyTemporaryer) = Some true /\
   Temporary (ptr_Error (MaybeWrap dummyTemporaryer)) = false).
Proof. repeat split. Qed.

(** The same for every wrapped error: whatever [MaybeWrap(err)] wraps, the
    entry points answer 0 and false on it. *)
Lemma ExitCode_MaybeWrap (w : error) :
  ExitCode (ptr_Error (MaybeWrap w)) = 0 /\
  Temporary (ptr_Error (MaybeWrap w)) = false.
Proof. destruct w as [| | |? ? ? ?]; split; reflexivity. Qed.

(** C2: when the exit-code (resp. temporary) override of a DecoratedError
    is set, the entry point [ExitCode] (resp. [Temporary]), on the
    [*Error] and on the [Error] held by value, and the method return the
    value set, whatever the error wraps. *)
Theorem override_wins (e : Error) :
  (isExitCodeSet e = true ->
   ExitCode (ptr_Error (Some e)) = exitCode e /\
   ExitCode (val_Error e) = exitCode e /\
   Error_ExitCode e = exitCode e) /\
  (isTemporarySet e = true ->
   Temporary (ptr_Error (Some e)) = temporary e /\
   Temporary (val_Error e) = temporary e /\
   Error_Temporary e = temporary e).
Proof.
  split; intros Hset.
  - assert (Hm : Error_ExitCode e = exitCode e).
    { unfold Error_ExitCode, ExitCode_method. now rewrite Hset. }
    unfold ExitCode. rewrite unwrapExitCode_ptr, unwrapExitCode_val.
    simpl. auto.
  - assert (Hm : Error_Temporary e = temporary e).
    { unfold Error_Temporary, Temporary_method. now rewrite Hset. }
    unfold Temporary. rewrite unwrapTemporary_ptr, unwrapTemporary_val.
    simpl. auto.
Qed.

(** [override_wins] on an error with both overrides set, whose wrapped
    chain resolves to other values. *)
Lemma override_wins_witness :
  (ExitCode (err deep_override) = 42 /\
   Temporary (err deep_override) = false) /\
  (ExitCode (ptr_Error (Some deep_override)) = 13 /\
   ExitCode (val_Error deep_override) = 13 /\
   Error_ExitCode deep_override = 13) /\
  (Temporary (ptr_Error (Some deep_override)) = true /\
   Temporary (val_Error deep_override) = true /\
   Error_Temporary deep_override = true).
Proof.
  split; [split; reflexivity|].
  split.
  - apply (proj1 (override_wins deep_override)). reflexivity.
  - apply (proj2 (override_wins deep_override)). reflexivity.
Defined.

(** C3: on an error from outside the package that has the method
    [ExitCode()] (resp. [Temporary()]), the entry point returns what the
    method returns, in the first iteration of the loop, whether or not the
    error also has [Unwrap()] and whatever that would return. *)
Theorem foreign_capability_is_final
    (text : string) (code : Z) (t : bool)
    (exitCoder : option Z) (temporaryer : option bool)
    (unwrapper : option error) :
  (ExitCode (foreign text (Some code) temporaryer unwrapper) = code /\
   unwrapExitCode (foreign text (Some code) temporaryer unwrapper) = (code, true) /\
   walk 0 inspectExitCode 1
     (foreign text (Some code) temporaryer unwrapper) = Some (code, true)) /\
  (Temporary (foreign text exitCoder (Some t) unwrapper) = t /\
   unwrapTemporary (foreign text exitCoder (Some t) unwrapper) = (t, true) /\
   walk false inspectTemporary 1
     (foreign text exitCoder (Some t) unwrapper) = Some (t, true)).
Proof. repeat split. Qed.

(** C8: [MaybeWrap(nil)] is the nil [*Error]; [ExitCode] and [Temporary]
    are 0 and false on it and on the nil error; and every setter called
    on it returns it. *)
Theorem MaybeWrap_nil :
  MaybeWrap nil_error = None /\
  (ExitCode (ptr_Error (MaybeWrap nil_error)) = 0 /\
   Temporary (ptr_Error (MaybeWrap nil_error)) = false /\
   ExitCode nil_error = 0 /\
   Temporary nil_error = false) /\
  (forall code, WithExitCode (MaybeWrap nil_error) code = None) /\
  (forall t, WithTemporary (MaybeWrap nil_error) t = None) /\
  (forall line, WithLineAfterOptions (MaybeWrap nil_error) line = None) /\
  (forall lines, WithLinesAfterOptions (MaybeWrap nil_error) lines = None) /\
  (forall line, WithLineBeforeMessage (MaybeWrap nil_error) line = None) /\
  (forall lines, WithLinesBeforeMessage (MaybeWrap nil_error) lines = None) /\
  (forall line, WithLineBetweenMessageAndOption (MaybeWrap nil_error) line = None) /\
  (forall lines, WithLinesBetweenMessageAndOption (MaybeWrap nil_error) lines = None) /\
  (forall formatted, WithMessage (MaybeWrap nil_error) formatted = None) /\
  (forall i c, WithOptionComment (MaybeWrap nil_error) i c = None) /\
  (forall opts, WithOptions (MaybeWrap nil_error) opts = None) /\
  (forall w, WithWrap (MaybeWrap nil_error) w = None).
Proof. repeat split. Qed.

(** ** Termination of the resolution loop *)

Section WalkFacts.

Context {A N : Type}.
Variable zero : A.
Variable inspect : N -> link A N.

Local Abbreviation iteration := (iteration zero inspect).
Local Abbreviation walk := (walk zero inspect).
Local Abbreviation visited := (visited zero inspect).
Local Abbreviation chain_ends := (chain_ends zero inspect).

(** The length of a finite chain is determined by its first value. *)
Lemma chain_ends_unique n m err0 :
  chain_ends n err0 -> chain_ends m err0 -> n = m.
Proof.
  intros Hn. revert m.
  induction Hn as [err0 r Hr | n err0 next Hnext _ IH]; intros m Hm.
  - destruct Hm as [? ? _ | ? ? ? Hnext' _]; [reflexivity | congruence].
  - destruct Hm as [? ? Hr | m ? next' Hnext' Hm]; [congruence |].
    f_equal. apply IH. congruence.
Qed.

(** With more fuel than the chain is long, the loop returns. *)
Lemma walk_returns n err0 :
  chain_ends n err0 ->
  exists r, forall fuel, (n < fuel)%nat -> walk fuel err0 = Some r.
Proof.
  induction 1 as [err0 r Hr | n err0 next Hnext _ [r IH]]; exists r.
  - intros [|fuel] Hlt; [lia |]. simpl. now rewrite Hr.
  - intros [|fuel] Hlt; [lia |]. simpl. rewrite Hnext. apply IH. lia.
Qed.

(** It does not return before the end of the chain. *)
Lemma walk_not_before n err0 :
  chain_ends n err0 ->
  forall fuel, (fuel <= n)%nat -> walk fuel err0 = None.
Proof.
  induction 1 as [err0 r Hr | n err0 next Hnext _ IH]; intros [|fuel] Hle;
    try reflexivity; try lia.
  simpl. rewrite Hnext. apply IH. lia.
Qed.

(** Every value the loop comes to starts a chain that is shorter by the
    number of unwraps made to reach it. *)
Lemma visited_chain_ends n err0 :
  chain_ends n err0 ->
  forall k x, In x (visited k err0) ->
  exists m, (m <= n)%nat /\ chain_ends m x.
Proof.
  induction 1 as [err0 r Hr | n err0 next Hnext Hends IH]; intros [|k] x Hin;
    simpl in Hin; try contradiction.
  - rewrite Hr in Hin. destruct Hin as [<- | []].
    exists O. split; [lia | econstructor; eassumption].
  - rewrite Hnext in Hin. destruct Hin as [<- | Hin].
    + exists (S n). split; [lia | econstructor; eassumption].
    + destruct (IH _ _ Hin) as [m [Hle Hm]]. exists m. split; [lia | assumption].
Qed.

Lemma visited_NoDup n err0 :
  chain_ends n err0 -> forall k, NoDup (visited k err0).
Proof.
  induction 1 as [err0 r Hr | n err0 next Hnext Hends IH]; intros [|k]; simpl;
    try constructor.
  - rewrite Hr. intros [].
  - rewrite Hr. constructor.
  - rewrite Hnext. intros Hin.
    destruct (visited_chain_ends _ _ Hends _ _ Hin) as [m [Hle Hm]].
    assert (Heq : m = S n).
    { apply (chain_ends_unique m (S n) err0); [assumption |].
      econstructor; eassumption. }
    lia.
  - rewrite Hnext. apply IH.
Qed.

Lemma visited_length n err0 :
  chain_ends n err0 -> List.length (visited (S n) err0) = S n.
Proof.
  induction 1 as [err0 r Hr | n err0 next Hnext _ IH].
  - simpl. now rewrite Hr.
  - change (visited (S (S n)) err0)
      with (err0 :: match iteration err0 with
                    | inl _ => []
                    | inr next => visited (S n) next
                    end).
    rewrite Hnext. cbn [List.length]. now rewrite IH.
Qed.

(** A loop that reaches a returning iteration after [n] others returns
    the same result whenever it is given more than [n] iterations, has
    not returned within [n], and has inspected [n + 1] pairwise distinct
    values by then. *)
Theorem resolution_walk_terminates n err0 :
  chain_ends n err0 ->
  (exists r, forall fuel, (n < fuel)%nat -> walk fuel err0 = Some r) /\
  (forall fuel, (fuel <= n)%nat -> walk fuel err0 = None) /\
  List.length (visited (S n) err0) = S n /\
  NoDup (visited (S n) err0).
Proof.
  intros Hends. split; [| split; [| split]].
  - now apply walk_returns.
  - now apply walk_not_before.
  - now apply visited_length.
  - now apply (visited_NoDup n).
Qed.

End WalkFacts.

(** The error values are finite chains, and the loop on them computes
    [unwrapExitCode] and [unwrapTemporary]. *)
Lemma exitCode_chain_ends :
  forall err0, chain_ends 0 inspectExitCode (exitCode_hops err0) err0.
Proof.
  fix IH 1.
  intros [| [e |] | e | text [code |] t [next |]]; simpl;
    try (eapply chain_ends_here; reflexivity).
  eapply chain_ends_next; [reflexivity | apply IH].
Qed.

Lemma temporary_chain_ends :
  forall err0, chain_ends false inspectTemporary (temporary_hops err0) err0.
Proof.
  fix IH 1.
  intros [| [e |] | e | text code [t |] [next |]]; simpl;
    try (eapply chain_ends_here; reflexivity).
  eapply chain_ends_next; [reflexivity | apply IH].
Qed.

Lemma unwrapExitCode_walk :
  forall err0,
    walk 0 inspectExitCode (S (exitCode_hops err0)) err0
    = Some (unwrapExitCode err0).
Proof.
  fix IH 1.
  intros [| [e |] | e | text [code |] t [next |]]; try reflexivity.
  change (walk 0 inspectExitCode (S (exitCode_hops next)) next
          = Some (unwrapExitCode next)).
  apply IH.
Qed.

Lemma unwrapTemporary_walk :
  forall err0,
    walk false inspectTemporary (S (temporary_hops err0)) err0
    = Some (unwrapTemporary err0).
Proof.
  fix IH 1.
  intros [| [e |] | e | text code [t |] [next |]]; try reflexivity.
  change (walk false inspectTemporary (S (temporary_hops next)) next
          = Some (unwrapTemporary next)).
  apply IH.
Qed.

(** On a chain that comes back to its first value the loop never
    returns. *)
Lemma walk_self_never_returns {A : Type} (zero : A) :
  forall fuel, walk zero inspect_self fuel tt = None.
Proof. induction fuel as [|fuel IH]; [reflexivity | exact IH]. Qed.

(** [resolution_walk_terminates] on the chain below [deep_override], two
    unwraps long. *)
Lemma resolution_walk_terminates_witness :
  let err0 := err deep_override in
  chain_ends 0 inspectExitCode 2 err0 /\
  ((exists r, forall fuel, (2 < fuel)%nat -> walk 0 inspectExitCode fuel err0 = Some r) /\
   (forall fuel, (fuel <= 2)%nat -> walk 0 inspectExitCode fuel err0 = None) /\
   List.length (visited 0 inspectExitCode 3 err0) = 3%nat /\
   NoDup (visited 0 inspectExitCode 3 err0)).
Proof.
  assert (Hends : chain_ends 0 inspectExitCode 2 (err deep_override)).
  { eapply chain_ends_next; [reflexivity |].
    eapply chain_ends_next; [reflexivity |].
    eapply chain_ends_here; reflexivity. }
  split; [exact Hends |].
  exact (resolution_walk_terminates 0 inspectExitCode 2 (err deep_override) Hends).
Defined.

(** ** The loop on the chain of an error *)

Section ChainFacts.

Context {A N : Type}.
Variable zero : A.
Variable inspect : N -> link A N.

(** Where a value has no unwrap target the loop returns; where it has
    one the loop goes on with it. *)
Lemma iteration_at_end (err0 : N) :
  unwrap_target inspect err0 = None ->
  exists r, iteration zero inspect err0 = inl r.
Proof.
  unfold unwrap_target, iteration.
  destruct (inspect err0) as [| [[a isSet] |] | a | next |]; intros Hnone;
    try discriminate; eexists; reflexivity.
Qed.

Lemma iteration_at_link (err0 next : N) :
  unwrap_target inspect err0 = Some next ->
  iteration zero inspect err0 = inr next.
Proof.
  unfold unwrap_target, iteration.
  destruct (inspect err0) as [| [[a isSet] |] | a | next' |]; intros Hsome;
    try discriminate. now injection Hsome as <-.
Qed.

Lemma is_chain_ends (rest : list N) (err0 : N) :
  is_chain inspect err0 rest ->
  chain_ends zero inspect (List.length rest) err0.
Proof.
  revert err0. induction rest as [|next rest IH]; intros err0 Hchain.
  - destruct (iteration_at_end err0 Hchain) as [r Hr].
    eapply chain_ends_here. exact Hr.
  - destruct Hchain as [Hnext Hchain].
    eapply chain_ends_next;
      [exact (iteration_at_link err0 next Hnext) | now apply IH].
Qed.

(** The loop inspects the values of the chain, in order. *)
Lemma is_chain_visited (rest : list N) (err0 : N) :
  is_chain inspect err0 rest ->
  visited zero inspect (S (List.length rest)) err0 = err0 :: rest.
Proof.
  revert err0. induction rest as [|next rest IH]; intros err0 Hchain.
  - destruct (iteration_at_end err0 Hchain) as [r Hr].
    simpl. now rewrite Hr.
  - destruct Hchain as [Hnext Hchain].
    change (visited zero inspect (S (List.length (next :: rest))) err0)
      with (err0 :: match iteration zero inspect err0 with
                    | inl _ => []
                    | inr next' =>
                        visited zero inspect (S (List.length rest)) next'
                    end).
    rewrite (iteration_at_link err0 next Hnext). now rewrite IH.
Qed.

(** It returns what the type switch gives at the last value. *)
Lemma is_chain_result (rest : list N) (err0 : N) :
  is_chain inspect err0 rest ->
  exists r,
    iteration zero inspect (chain_end err0 rest) = inl r /\
    forall fuel, (List.length rest < fuel)%nat ->
                 walk zero inspect fuel err0 = Some r.
Proof.
  revert err0. induction rest as [|next rest IH]; intros err0 Hchain.
  - destruct (iteration_at_end err0 Hchain) as [r Hr]. exists r.
    split; [exact Hr |]. intros [|fuel] Hfuel; [simpl in Hfuel; lia |].
    simpl. now rewrite Hr.
  - destruct Hchain as [Hnext Hchain].
    destruct (IH next Hchain) as [r [Hr Hwalk]]. exists r.
    split; [exact Hr |]. intros [|fuel] Hfuel; [simpl in Hfuel; lia |].
    simpl. rewrite (iteration_at_link err0 next Hnext).
    apply Hwalk. simpl in Hfuel. lia.
Qed.

End ChainFacts.

(** The chain of an error value is the one [exitCode_chain] (resp.
    [temporary_chain]) lists. *)
Lemma exitCode_chain_is_chain :
  forall err0, is_chain inspectExitCode err0 (exitCode_chain err0).
Proof.
  fix IH 1.
  intros [| [e |] | e | text [code |] t [next |]]; try reflexivity.
  split; [reflexivity | apply IH].
Qed.

Lemma temporary_chain_is_chain :
  forall err0, is_chain inspectTemporary err0 (temporary_chain err0).
Proof.
  fix IH 1.
  intros [| [e |] | e | text code [t |] [next |]]; try reflexivity.
  split; [reflexivity | apply IH].
Qed.

Lemma exitCode_chain_length :
  forall err0, List.length (exitCode_chain err0) = exitCode_hops err0.
Proof.
  fix IH 1.
  intros [| [e |] | e | text [code |] t [next |]]; try reflexivity.
  simpl. f_equal. apply IH.
Qed.

Lemma temporary_chain_length :
  forall err0, List.length (temporary_chain err0) = temporary_hops err0.
Proof.
  fix IH 1.
  intros [| [e |] | e | text code [t |] [next |]]; try reflexivity.
  simpl. f_equal. apply IH.
Qed.

(** A value whose [Unwrap()] returns the value itself has no chain. *)
Lemma self_has_no_chain {A : Type} (rest : list unit) :
  ~ is_chain (@inspect_self A) tt rest.
Proof.
  induction rest as [|[] rest IH]; simpl.
  - discriminate.
  - intros [_ Hchain]. now apply IH.
Qed.

(** C9: the walk of [ExitCode(err)] and [Temporary(err)] on a finite
    chain.  Whatever the values are and however they are reached, when
    the chain of unwrap targets from [err] is [rest] and ends, the loop
    returns what the type switch gives at the last value of the chain; it
    returns that with any number of iterations above the length of
    [rest] and has not returned within that length; the values it
    inspects are [err] and then those of [rest], each being the unwrap
    target of the one before; and none of them occurs twice.  Every error
    value has such a chain, the loops of [unwrapExitCode] and
    [unwrapTemporary] on it return the results that [ExitCode] and
    [Temporary] are taken from, and a value that unwraps to itself has
    none. *)
Theorem resolution_follows_chain :
  (forall (A N : Type) (zero : A) (inspect : N -> link A N)
          (err0 : N) (rest : list N),
     is_chain inspect err0 rest ->
     (exists r,
        iteration zero inspect (chain_end err0 rest) = inl r /\
        forall fuel, (List.length rest < fuel)%nat ->
                     walk zero inspect fuel err0 = Some r) /\
     (forall fuel, (fuel <= List.length rest)%nat ->
                   walk zero inspect fuel err0 = None) /\
     visited zero inspect (S (List.length rest)) err0 = err0 :: rest /\
     NoDup (err0 :: rest)) /\
  (forall err0 : error,
     is_chain inspectExitCode err0 (exitCode_chain err0) /\
     walk 0 inspectExitCode (S (List.length (exitCode_chain err0))) err0
     = Some (unwrapExitCode err0) /\
     option_map fst
       (walk 0 inspectExitCode (S (List.length (exitCode_chain err0))) err0)
     = Some (ExitCode err0) /\
     is_chain inspectTemporary err0 (temporary_chain err0) /\
     walk false inspectTemporary (S (List.length (temporary_chain err0))) err0
     = Some (unwrapTemporary err0) /\
     option_map fst
       (walk false inspectTemporary (S (List.length (temporary_chain err0))) err0)
     = Some (Temporary err0)) /\
  (forall rest : list unit,
     ~ is_chain (@inspect_self Z) tt rest /\
     ~ is_chain (@inspect_self bool) tt rest).
Proof.
  split; [| split].
  - intros A N zero inspect err0 rest Hchain.
    split; [now apply is_chain_result |].
    split; [apply walk_not_before; now apply is_chain_ends |].
    split; [now apply is_chain_visited |].
    rewrite <- (is_chain_visited zero inspect rest err0 Hchain).
    apply (visited_NoDup zero inspect (List.length rest)).
    now apply is_chain_ends.
  - intros err0.
    assert (Hcode :
      walk 0 inspectExitCode (S (List.length (exitCode_chain err0))) err0
      = Some (unwrapExitCode err0)).
    { rewrite exitCode_chain_length. apply unwrapExitCode_walk. }
    assert (Htemporary :
      walk false inspectTemporary (S (List.length (temporary_chain err0))) err0
      = Some (unwrapTemporary err0)).
    { rewrite temporary_chain_length. apply unwrapTemporary_walk. }
    split; [apply exitCode_chain_is_chain |].
    split; [exact Hcode |].
    split; [now rewrite Hcode |].
    split; [apply temporary_chain_is_chain |].
    split; [exact Htemporary |].
    now rewrite Htemporary.
  - intros rest. split; apply self_has_no_chain.
Qed.

(** [resolution_follows_chain] on three values in a store, reached by
    address, and on the chain below [deep_override]. *)
Lemma resolution_follows_chain_witness :
  is_chain inspect_store 0%nat [1%nat; 2%nat] /\
  (forall fuel, (2 < fuel)%nat -> walk 0 inspect_store fuel 0%nat = Some (42, true)) /\
  (forall fuel, (fuel <= 2)%nat -> walk 0 inspect_store fuel 0%nat = None) /\
  visited 0 inspect_store 3 0%nat = [0%nat; 1%nat; 2%nat] /\
  NoDup [0%nat; 1%nat; 2%nat] /\
  walk 0 inspectExitCode 3 (err deep_override) = Some (42, true).
Proof.
  assert (Hchain : is_chain inspect_store 0%nat [1%nat; 2%nat])
    by (repeat split).
  destruct (proj1 resolution_follows_chain Z nat 0 inspect_store
              0%nat [1%nat; 2%nat] Hchain)
    as [[r [Hend Hreturns]] [Hbefore [Hvisited Hnodup]]].
  assert (Hr : r = (42, true)).
  { cbn in Hend. now injection Hend as <-. }
  subst r.
  split; [exact Hchain |]. split; [exact Hreturns |].
  split; [exact Hbefore |]. split; [exact Hvisited |].
  split; [exact Hnodup |].
  exact (proj1 (proj2 (proj1 (proj2 resolution_follows_chain)
                         (err deep_override)))).
Defined.

(** ** Sorting the option comments *)

Lemma in_order_le (a b : optionComment) :
  in_order a b <-> index b <= index a.
Proof.
  unfold in_order, Less. rewrite Z.gtb_ltb, Z.ltb_ge. reflexivity.
Qed.

Lemma sink_Permutation (xj : optionComment) (before : list optionComment) :
  Permutation (xj :: before) (sink xj before).
Proof.
  induction before as [|b before IH]; simpl.
  - reflexivity.
  - destruct (Less xj b).
    + rewrite perm_swap. now constructor.
    + reflexivity.
Qed.

Lemma sink_ascending (xj : optionComment) (before : list optionComment) :
  ascending before -> ascending (sink xj before).
Proof.
  unfold ascending.
  induction before as [|b before IH]; intros Hsorted; simpl.
  - repeat constructor.
  - apply StronglySorted_inv in Hsorted. destruct Hsorted as [Hbefore Hb].
    destruct (Less xj b) eqn:Hless; unfold Less in Hless.
    + constructor; [now apply IH |].
      eapply Permutation_Forall; [apply sink_Permutation |].
      constructor; [lia | assumption].
    + constructor; [now constructor |].
      constructor; [lia |].
      eapply Forall_impl; [| exact Hb]. simpl. intros c Hc. lia.
Qed.

Lemma StronglySorted_snoc {T : Type} (R : T -> T -> Prop) (l : list T) (x : T) :
  StronglySorted R l -> Forall (fun a => R a x) l ->
  StronglySorted R (l ++ [x]).
Proof.
  induction l as [|a l IH]; intros Hsorted Hall; simpl.
  - repeat constructor.
  - apply StronglySorted_inv in Hsorted. destruct Hsorted as [Hl Ha].
    inversion Hall as [|? ? Hax Hlx]; subst.
    constructor; [now apply IH |].
    apply Forall_app. split; [assumption | now repeat constructor].
Qed.

Lemma rev_ascending (l : list optionComment) :
  ascending l -> StronglySorted in_order (rev l).
Proof.
  unfold ascending.
  induction l as [|a l IH]; intros Hsorted; simpl.
  - constructor.
  - apply StronglySorted_inv in Hsorted. destruct Hsorted as [Hl Ha].
    apply StronglySorted_snoc; [now apply IH |].
    apply Forall_rev. eapply Forall_impl; [| exact Ha].
    simpl. intros c Hc. now apply in_order_le.
Qed.

Lemma insertionSort_from_Permutation (rest done : list optionComment) :
  Permutation (rev done ++ rest) (insertionSort_from done rest).
Proof.
  revert done. induction rest as [|xi rest IH]; intros done; simpl.
  - now rewrite app_nil_r.
  - rewrite <- IH. rewrite <- Permutation_middle.
    change (Permutation ((xi :: rev done) ++ rest) (rev (sink xi done) ++ rest)).
    apply Permutation_app_tail.
    rewrite <- !Permutation_rev. apply sink_Permutation.
Qed.

Lemma insertionSort_from_in_order (rest done : list optionComment) :
  ascending done -> StronglySorted in_order (insertionSort_from done rest).
Proof.
  revert done. induction rest as [|xi rest IH]; intros done Hdone; simpl.
  - now apply rev_ascending.
  - apply IH. now apply sink_ascending.
Qed.

(** Go's insertion sort keeps the contract of [sort.Sort]. *)
Lemma insertionSort_contract : sort_contract insertionSort.
Proof.
  split; intros x; unfold insertionSort.
  - apply (insertionSort_from_Permutation x []).
  - apply insertionSort_from_in_order. constructor.
Qed.

Lemma gapPass_Permutation (lo hi : list optionComment) :
  Permutation (lo ++ hi) (fst (gapPass lo hi) ++ snd (gapPass lo hi)).
Proof.
  revert hi. induction lo as [|xi6 lo IH]; intros [|xi hi]; simpl;
    try reflexivity.
  specialize (IH hi). destruct (gapPass lo hi) as [l h]. simpl in IH.
  rewrite <- Permutation_middle, IH.
  destruct (Less xi xi6); simpl.
  - rewrite <- Permutation_middle. apply perm_swap.
  - now rewrite <- Permutation_middle.
Qed.

(** So does the insertion sort after the pass with gap 6. *)
Lemma shellInsertionSort_contract : sort_contract shellInsertionSort.
Proof.
  split; intros x; unfold shellInsertionSort;
    pose proof (gapPass_Permutation (firstn 6 x) (skipn 6 x)) as Hgap;
    destruct (gapPass (firstn 6 x) (skipn 6 x)) as [l h]; cbn [fst snd] in Hgap.
  - rewrite firstn_skipn in Hgap. rewrite Hgap.
    apply insertionSort_contract.
  - apply insertionSort_contract.
Qed.

(** The order of the specification is an order [sort.Sort] may produce. *)
Lemma spec_place_Permutation (ann : optionComment) (sorted : list optionComment) :
  Permutation (ann :: sorted) (spec_place ann sorted).
Proof.
  induction sorted as [|b sorted IH]; simpl.
  - reflexivity.
  - destruct (index b >? index ann).
    + rewrite perm_swap. now constructor.
    + reflexivity.
Qed.

Lemma spec_place_in_order (ann : optionComment) (sorted : list optionComment) :
  StronglySorted in_order sorted ->
  StronglySorted in_order (spec_place ann sorted).
Proof.
  induction sorted as [|b sorted IH]; intros Hsorted; simpl.
  - repeat constructor.
  - apply StronglySorted_inv in Hsorted. destruct Hsorted as [Hs Hb].
    destruct (index b >? index ann) eqn:Hgt.
    + constructor; [now apply IH |].
      eapply Permutation_Forall; [apply spec_place_Permutation |].
      constructor; [apply in_order_le; lia | assumption].
    + constructor; [now constructor |].
      constructor; [apply in_order_le; lia |].
      eapply Forall_impl; [| exact Hb]. simpl. intros c Hc.
      apply in_order_le. apply in_order_le in Hc. lia.
Qed.

Lemma spec_order_contract : sort_contract spec_order.
Proof.
  split; intros x; unfold spec_order.
  - induction x as [|a x IH]; simpl; [reflexivity |].
    rewrite <- spec_place_Permutation. now constructor.
  - induction x as [|a x IH]; simpl; [constructor |].
    now apply spec_place_in_order.
Qed.

(** Comments of pairwise distinct indices have one sorted order. *)
Lemma in_order_unique (l1 l2 : list optionComment) :
  StronglySorted in_order l1 -> StronglySorted in_order l2 ->
  Permutation l1 l2 -> NoDup (map index l1) -> l1 = l2.
Proof.
  revert l2. induction l1 as [|a l1 IH]; intros l2 Hs1 Hs2 Hperm Hnodup.
  - apply Permutation_nil in Hperm. now subst.
  - destruct l2 as [|b l2].
    { apply Permutation_sym, Permutation_nil in Hperm. discriminate. }
    apply StronglySorted_inv in Hs1. destruct Hs1 as [Hs1 Ha].
    apply StronglySorted_inv in Hs2. destruct Hs2 as [Hs2 Hb].
    simpl in Hnodup. apply NoDup_cons_iff in Hnodup.
    destruct Hnodup as [Hnotin Hnodup].
    assert (Heq : a = b).
    { assert (Hina : In a (b :: l2)).
      { eapply Permutation_in; [exact Hperm | now left]. }
      assert (Hinb : In b (a :: l1)).
      { eapply Permutation_in; [apply Permutation_sym; exact Hperm | now left]. }
      destruct Hina as [-> | Hina]; [reflexivity |].
      destruct Hinb as [-> | Hinb]; [reflexivity |].
      exfalso. apply Hnotin.
      rewrite Forall_forall in Ha, Hb.
      specialize (Ha b Hinb). specialize (Hb a Hina).
      apply in_order_le in Ha, Hb.
      replace (index a) with (index b) by lia.
      now apply in_map. }
    subst b. f_equal. apply IH; try assumption.
    now apply Permutation_cons_inv in Hperm.
Qed.

Lemma sort_distinct (sort : list optionComment -> list optionComment)
    (ocs : list optionComment) :
  sort_contract sort -> NoDup (map index ocs) -> sort ocs = spec_order ocs.
Proof.
  intros [Hperm Hsorted] Hnodup.
  destruct spec_order_contract as [Hperm' Hsorted'].
  apply in_order_unique; auto.
  - now rewrite <- Hperm, <- Hperm'.
  - eapply Permutation_NoDup; [| exact Hnodup].
    apply Permutation_map, Hperm.
Qed.

(** ** Strings and columns *)

Lemma length_append (s t : string) :
  String.length (s ++ t) = (String.length s + String.length t)%nat.
Proof. induction s as [|c s IH]; simpl; [reflexivity | now rewrite IH]. Qed.

Lemma append_assoc (s t u : string) : ((s ++ t) ++ u = s ++ t ++ u)%string.
Proof. induction s as [|c s IH]; simpl; [reflexivity | now rewrite IH]. Qed.

Lemma len_append (s t : string) : len (s ++ t) = len s + len t.
Proof. unfold len. rewrite length_append. lia. Qed.

Lemma len_nonneg (s : string) : 0 <= len s.
Proof. unfold len. lia. Qed.

Lemma len_empty (s : string) : len s = 0 <-> s = "".
Proof.
  unfold len. destruct s; simpl; split; intros H; try reflexivity;
    try discriminate; lia.
Qed.

Lemma strings_Repeat_nonneg (s : string) (count : Z) :
  0 <= count -> strings_Repeat s count = Ok (copies s (Z.to_nat count)).
Proof.
  intros Hcount. unfold strings_Repeat.
  destruct (count <? 0) eqn:Hneg; [lia | reflexivity].
Qed.

Lemma strings_Repeat_negative (s : string) (count : Z) :
  count < 0 -> strings_Repeat s count = Panic "strings: negative Repeat count".
Proof.
  intros Hcount. unfold strings_Repeat.
  destruct (count <? 0) eqn:Hneg; [reflexivity | lia].
Qed.

Lemma start_column_0 (opts : list string) : start_column opts 0 = 0.
Proof. now destruct opts. Qed.

Lemma start_column_nonneg (opts : list string) (i : nat) :
  0 <= start_column opts i.
Proof.
  revert i. induction opts as [|opt opts IH]; intros [|i]; simpl; try lia.
  specialize (IH i). pose proof (len_nonneg opt). lia.
Qed.

(** Each option takes its length and one column for the space. *)
Lemma start_column_next (opts : list string) (i : nat) :
  (i < List.length opts)%nat ->
  start_column opts (S i) = start_column opts i + len (nth i opts "") + 1.
Proof.
  revert i. induction opts as [|opt opts IH]; intros i Hi; simpl in Hi.
  - lia.
  - destruct i as [|i].
    + simpl. rewrite start_column_0. lia.
    + change (len opt + 1 + start_column opts (S i)
              = len opt + 1 + start_column opts i + len (nth i opts "") + 1).
      rewrite IH by lia. lia.
Qed.

(** The column after the last option and its space is one past the length
    of the joined line. *)
Lemma start_column_end (opts : list string) :
  opts <> [] ->
  start_column opts (List.length opts) = len (strings_Join opts " ") + 1.
Proof.
  induction opts as [|opt opts IH]; intros Hne; [congruence |].
  destruct opts as [|opt' opts].
  - simpl. lia.
  - change (len opt + 1 + start_column (opt' :: opts) (List.length (opt' :: opts))
            = len (opt ++ " " ++ strings_Join (opt' :: opts) " ") + 1).
    rewrite IH by discriminate. rewrite !len_append.
    change (len " ") with 1. lia.
Qed.

(** The first loop of [optionLines] fills [indices] with the start
    columns and leaves in [length] the column after the last option. *)
Lemma option_indices_columns (opts : list string) (indices : list Z) (length : Z) :
  option_indices opts indices length
  = ((indices
      ++ map (fun k => length + start_column opts k) (seq 1 (List.length opts)))%list,
     length + start_column opts (List.length opts)).
Proof.
  revert indices length.
  induction opts as [|opt opts IH]; intros indices length.
  - simpl. now rewrite app_nil_r, Z.add_0_r.
  - cbn [option_indices List.length seq map]. rewrite IH.
    rewrite <- app_assoc. cbn [app].
    change (start_column (opt :: opts) 1) with (len opt + 1 + start_column opts 0).
    rewrite start_column_0.
    f_equal; [| simpl; lia].
    do 2 f_equal; [lia |].
    rewrite <- (seq_shift (List.length opts) 1), map_map.
    apply map_ext. intros k. simpl. lia.
Qed.

Lemma option_indices_start (opts : list string) :
  option_indices opts [0] 0
  = (map (start_column opts) (seq 0 (S (List.length opts))),
     start_column opts (List.length opts)).
Proof.
  rewrite option_indices_columns. cbn [seq map app].
  now rewrite start_column_0.
Qed.

Lemma at_index_start (opts : list string) (i : Z) :
  0 <= i <= Z.of_nat (List.length opts) ->
  at_index (map (start_column opts) (seq 0 (S (List.length opts)))) i
  = Ok (start_column opts (Z.to_nat i)).
Proof.
  intros Hi. unfold at_index.
  destruct (i <? 0) eqn:Hneg; [lia |].
  rewrite nth_error_map.
  rewrite (nth_error_nth' _ O) by (rewrite length_seq; lia).
  rewrite seq_nth by lia. reflexivity.
Qed.

(** ** The lines of [optionLines] *)

(** The body of the second loop: it panics on a comment that points at an
    empty option, and draws [underline] for any other. *)
Lemma comment_line_underline (opts : list string) (oc : optionComment) :
  opts <> [] ->
  comment_line (Z.of_nat (List.length opts))
    (map (start_column opts) (seq 0 (S (List.length opts))))
    (start_column opts (List.length opts)) oc
  = if points_at_empty opts oc then Panic "strings: negative Repeat count"
    else Ok (underline opts oc).
Proof.
  intros Hne. unfold comment_line, points_at_empty, underline, in_range.
  assert (Hend : Z.to_nat (start_column opts (List.length opts))
                 = S (String.length (strings_Join opts " "))).
  { rewrite start_column_end by assumption. unfold len. lia. }
  destruct (index oc <? 0) eqn:Hneg; cbn [orb].
  { rewrite strings_Repeat_nonneg by apply start_column_nonneg.
    replace (0 <=? index oc) with false by lia.
    cbn [andb bind]. now rewrite Hend. }
  destruct (index oc >=? Z.of_nat (List.length opts)) eqn:Hge.
  { rewrite strings_Repeat_nonneg by apply start_column_nonneg.
    replace (index oc <? Z.of_nat (List.length opts)) with false by lia.
    rewrite andb_false_r.
    cbn [andb bind]. now rewrite Hend. }
  replace (0 <=? index oc) with true by lia.
  replace (index oc <? Z.of_nat (List.length opts)) with true by lia.
  cbn [andb].
  rewrite at_index_start by lia. cbn [bind].
  rewrite strings_Repeat_nonneg by apply start_column_nonneg. cbn [bind].
  assert (Hnext : start_column opts (S (Z.to_nat (index oc)))
                  = start_column opts (Z.to_nat (index oc))
                    + len (option_at opts oc) + 1).
  { apply start_column_next. lia. }
  assert (Htildes :
    (if index oc =? Z.of_nat (List.length opts) - 1
     then strings_Repeat "~"
            (start_column opts (List.length opts)
             - start_column opts (Z.to_nat (index oc)) - 2)
     else next <- at_index
                    (map (start_column opts) (seq 0 (S (List.length opts))))
                    (index oc + 1) ;;
          strings_Repeat "~"
            (next - start_column opts (Z.to_nat (index oc)) - 2))
    = strings_Repeat "~" (len (option_at opts oc) - 1)).
  { destruct (index oc =? Z.of_nat (List.length opts) - 1) eqn:Hlast.
    - replace (List.length opts) with (S (Z.to_nat (index oc))) at 1 by lia.
      f_equal. lia.
    - rewrite at_index_start by lia. cbn [bind].
      replace (Z.to_nat (index oc + 1)) with (S (Z.to_nat (index oc))) by lia.
      f_equal. lia. }
  rewrite Htildes.
  destruct (option_at opts oc =? "")%string eqn:Hempty.
  - apply String.eqb_eq in Hempty. rewrite Hempty.
    reflexivity.
  - apply String.eqb_neq in Hempty.
    assert (0 < len (option_at opts oc)).
    { pose proof (len_nonneg (option_at opts oc)).
      destruct (Z.eq_dec (len (option_at opts oc)) 0) as [Hzero | Hpos];
        [apply len_empty in Hzero; contradiction | lia]. }
    rewrite strings_Repeat_nonneg by lia. cbn [bind].
    replace (Z.to_nat (len (option_at opts oc) - 1))
      with (String.length (option_at opts oc) - 1)%nat by (unfold len; lia).
    now rewrite !append_assoc.
Qed.

(** The second loop: it panics when a comment points at an empty option,
    and adds one line for each comment otherwise. *)
Lemma comment_lines_underline (opts : list string) (ocs : list optionComment)
    (lines : list string) :
  opts <> [] ->
  comment_lines (Z.of_nat (List.length opts))
    (map (start_column opts) (seq 0 (S (List.length opts))))
    (start_column opts (List.length opts)) ocs lines
  = if existsb (points_at_empty opts) ocs
    then Panic "strings: negative Repeat count"
    else Ok (lines ++ map (underline opts) ocs)%list.
Proof.
  intros Hne. revert lines.
  induction ocs as [|oc ocs IH]; intros lines; simpl.
  - now rewrite app_nil_r.
  - rewrite comment_line_underline by assumption.
    destruct (points_at_empty opts oc); simpl; [reflexivity |].
    rewrite IH. destruct (existsb (points_at_empty opts) ocs); [reflexivity |].
    now rewrite <- app_assoc.
Qed.

Section DisplayFacts.

Variable sort_Sort : list optionComment -> list optionComment.

(** [optionLines] on options and comments, whatever [sort.Sort] does. *)
Lemma optionLines_underline (opts : list string) (ocs : list optionComment) :
  opts <> [] -> ocs <> [] ->
  optionLines sort_Sort opts ocs
  = if existsb (points_at_empty opts) (sort_Sort ocs)
    then Panic "strings: negative Repeat count"
    else Ok (strings_Join opts " " :: map (underline opts) (sort_Sort ocs),
             sort_Sort ocs).
Proof.
  intros Hopts Hocs. unfold optionLines.
  replace (Z.of_nat (List.length opts) =? 0) with false
    by (destruct opts; [congruence | reflexivity]).
  replace (Z.of_nat (List.length ocs) =? 0) with false
    by (destruct ocs; [congruence | reflexivity]).
  rewrite option_indices_start.
  rewrite comment_lines_underline by assumption.
  now destruct (existsb _ _).
Qed.

Lemma optionLines_no_options (ocs : list optionComment) :
  optionLines sort_Sort [] ocs = Ok ([], ocs).
Proof. reflexivity. Qed.

Lemma optionLines_no_comments (opts : list string) :
  opts <> [] -> optionLines sort_Sort opts [] = Ok ([strings_Join opts " "], []).
Proof. intros Hne. destruct opts; [congruence | reflexivity]. Qed.

Hypothesis sort_Sort_contract : sort_contract sort_Sort.

Lemma existsb_sort (p : optionComment -> bool) (ocs : list optionComment) :
  existsb p (sort_Sort ocs) = existsb p ocs.
Proof.
  destruct sort_Sort_contract as [Hperm _].
  apply eq_true_iff_eq. rewrite !existsb_exists.
  split; intros [x [Hin Hp]]; exists x; split; try assumption.
  - eapply Permutation_in; [apply Permutation_sym, Hperm | exact Hin].
  - eapply Permutation_in; [apply Hperm | exact Hin].
Qed.

Lemma sort_Sort_nil : sort_Sort [] = [].
Proof.
  destruct sort_Sort_contract as [Hperm _].
  now apply Permutation_nil.
Qed.

Lemma sort_Sort_descending (ocs : list optionComment) :
  StronglySorted (fun a b => index b <= index a) (sort_Sort ocs).
Proof.
  destruct sort_Sort_contract as [_ Hsorted].
  specialize (Hsorted ocs).
  induction Hsorted as [|a l Hl IH Ha]; constructor; [assumption |].
  eapply Forall_impl; [| exact Ha]. intros b. apply in_order_le.
Qed.

End DisplayFacts.

(** [optionLines] returns when no comment points at an empty option, and
    panics when one does. *)
Lemma optionLines_returns (sort : list optionComment -> list optionComment)
    (opts : list string) (ocs : list optionComment) :
  sort_contract sort -> opts <> [] -> ocs <> [] ->
  existsb (points_at_empty opts) ocs = false ->
  optionLines sort opts ocs
  = Ok (strings_Join opts " " :: map (underline opts) (sort ocs), sort ocs).
Proof.
  intros Hsort Hopts Hocs Hfull.
  rewrite optionLines_underline by assumption.
  now rewrite existsb_sort, Hfull.
Qed.

Lemma optionLines_panics (sort : list optionComment -> list optionComment)
    (opts : list string) (ocs : list optionComment) (oc : optionComment) :
  sort_contract sort -> In oc ocs -> points_at_empty opts oc = true ->
  optionLines sort opts ocs = Panic "strings: negative Repeat count".
Proof.
  intros Hsort Hin Hempty.
  assert (Hopts : opts <> []).
  { intros ->. unfold points_at_empty, in_range in Hempty. simpl in Hempty.
    destruct (0 <=? index oc) eqn:H0, (index oc <? 0) eqn:H1;
      simpl in Hempty; try discriminate; lia. }
  assert (Hocs : ocs <> []) by (intros ->; contradiction).
  rewrite optionLines_underline by assumption.
  rewrite existsb_sort by assumption.
  replace (existsb (points_at_empty opts) ocs) with true; [reflexivity |].
  symmetry. apply existsb_exists. now exists oc.
Qed.

(** C4, as stated, fails twice.  With the insertion sort that follows a
    pass of gap 6, an implementation of [sort.Sort] within its contract
    (the one of Go up to 1.18 on short slices), six comments on one option
    followed by one on the next are drawn with the first of the six last,
    where the specification keeps their insertion order.  And on the
    example of the claim the last option, five characters to the end of
    the joined line, is underlined with a caret and four tildes, where the
    specification's width minus two gives three. *)
Lemma spec_Render_differs :
  (sort_contract shellInsertionSort /\
   value (optionLines shellInsertionSort tied_options tied_comments)
   = Ok ["a b c"; "  ^ seventh"; "^ second"; "^ third"; "^ fourth";
         "^ fifth"; "^ sixth"; "^ first"] /\
   spec_Render tied_options tied_comments
   = ["a b c"; "  ^ seventh"; "^ first"; "^ second"; "^ third"; "^ fourth";
      "^ fifth"; "^ sixth"] /\
   value (optionLines shellInsertionSort tied_options tied_comments)
   <> Ok (spec_Render tied_options tied_comments)) /\
  (sort_contract insertionSort /\
   spec_tokenWidth usage_options 3 = 5 /\
   value (optionLines insertionSort usage_options usage_comments_ascending)
   = Ok ["zero --one two three";
         "               ^~~~~ cannot do this operation";
         "           ^~~ cannot find this file";
         "     ^~~~~ for this option"] /\
   spec_Render usage_options usage_comments_ascending
   = ["zero --one two three";
      "               ^~~~ cannot do this operation";
      "           ^~~ cannot find this file";
      "     ^~~~~ for this option"] /\
   value (optionLines insertionSort usage_options usage_comments_ascending)
   <> Ok (spec_Render usage_options usage_comments_ascending)).
Proof.
  split.
  - split; [exact shellInsertionSort_contract |].
    repeat split; try reflexivity. vm_compute. discriminate.
  - split; [exact insertionSort_contract |].
    repeat split; try reflexivity. vm_compute. discriminate.
Qed.

(** C4, amended: on options and comments of which none points at an empty
    option, with any [sort.Sort] within its contract, [optionLines]
    returns the options joined by single spaces, then one line for each
    comment, in an order of descending index that is a permutation of the
    comments, and that is the order of the specification when the indices
    are pairwise distinct; each line is [underline]: under an option, the
    caret at its start column and one tilde for each further character of
    the option.  On the example of the README the lines are those for the
    indices 3, 2 and 1, with 4, 2 and 4 tildes. *)
Theorem optionLines_descending
    (sort : list optionComment -> list optionComment)
    (opts : list string) (ocs : list optionComment) :
  sort_contract sort -> opts <> [] -> ocs <> [] ->
  existsb (points_at_empty opts) ocs = false ->
  (value (optionLines sort opts ocs)
   = Ok (strings_Join opts " " :: map (underline opts) (sort ocs)) /\
   Permutation ocs (sort ocs) /\
   StronglySorted (fun a b => index b <= index a) (sort ocs) /\
   (NoDup (map index ocs) -> sort ocs = spec_order ocs)) /\
  value (optionLines sort usage_options usage_comments_ascending)
  = Ok ["zero --one two three";
        "               ^~~~~ cannot do this operation";
        "           ^~~ cannot find this file";
        "     ^~~~~ for this option"].
Proof.
  intros Hsort Hopts Hocs Hfull. split; [split; [| split; [| split]] |].
  - now rewrite optionLines_returns.
  - apply Hsort.
  - now apply sort_Sort_descending.
  - now apply sort_distinct.
  - rewrite optionLines_returns; try assumption; try discriminate;
      try reflexivity.
    rewrite (sort_distinct sort usage_comments_ascending Hsort).
    + reflexivity.
    + repeat constructor; simpl; intuition discriminate.
Qed.

(** [optionLines_descending] with Go's insertion sort, on the example of
    the README. *)
Lemma optionLines_descending_witness :
  sort_contract insertionSort /\
  usage_options <> [] /\ usage_comments <> [] /\
  existsb (points_at_empty usage_options) usage_comments = false /\
  (value (optionLines insertionSort usage_options usage_comments)
   = Ok (strings_Join usage_options " "
         :: map (underline usage_options) (insertionSort usage_comments)) /\
   Permutation usage_comments (insertionSort usage_comments) /\
   StronglySorted (fun a b => index b <= index a)
     (insertionSort usage_comments) /\
   (NoDup (map index usage_comments) ->
    insertionSort usage_comments = spec_order usage_comments)) /\
  value (optionLines insertionSort usage_options usage_comments_ascending)
  = Ok ["zero --one two three";
        "               ^~~~~ cannot do this operation";
        "           ^~~ cannot find this file";
        "     ^~~~~ for this option"].
Proof.
  split; [exact insertionSort_contract |].
  split; [discriminate |]. split; [discriminate |].
  split; [reflexivity |].
  apply (optionLines_descending insertionSort usage_options usage_comments).
  - exact insertionSort_contract.
  - discriminate.
  - discriminate.
  - reflexivity.
Defined.

(** C6, as stated, fails: on the one option [zero] the line of a comment
    of index -1 has five spaces before the caret, one more than the
    joined line is long. *)
Lemma out_of_range_line_differs :
  let oc := {| comment := "no such option"; index := -1 |} in
  String.length (strings_Join ["zero"] " ") = 4%nat /\
  value (optionLines insertionSort ["zero"] [oc])
  = Ok ["zero"; "     ^ no such option"] /\
  (copies " " (String.length (strings_Join ["zero"] " ")) ++ "^ " ++ comment oc)%string
  = "    ^ no such option" /\
  forall lines,
    value (optionLines insertionSort ["zero"] [oc]) = Ok lines ->
    ~ In (copies " " (String.length (strings_Join ["zero"] " "))
          ++ "^ " ++ comment oc)%string lines.
Proof.
  repeat split. intros lines Hlines. vm_compute in Hlines.
  injection Hlines as <-. simpl. intuition discriminate.
Qed.

(** C6, amended: for options that are not empty and a comment whose index
    is negative or at least the number of options, the body of the loop
    returns a line of spaces, one more than the length of the joined line,
    followed by the caret, a space and the comment; and when no comment
    points at an empty option that line is among the lines of
    [optionLines], at the place of the comment in the sorted order. *)
Theorem out_of_range_line
    (sort : list optionComment -> list optionComment)
    (opts : list string) (ocs : list optionComment) (oc : optionComment) :
  sort_contract sort -> opts <> [] -> In oc ocs ->
  index oc < 0 \/ Z.of_nat (List.length opts) <= index oc ->
  let line := (copies " " (S (String.length (strings_Join opts " ")))
               ++ "^ " ++ comment oc)%string in
  comment_line (Z.of_nat (List.length opts))
    (fst (option_indices opts [0] 0)) (snd (option_indices opts [0] 0)) oc
  = Ok line /\
  underline opts oc = line /\
  (existsb (points_at_empty opts) ocs = false ->
   value (optionLines sort opts ocs)
   = Ok (strings_Join opts " " :: map (underline opts) (sort ocs)) /\
   In oc (sort ocs) /\
   In line (map (underline opts) (sort ocs))).
Proof.
  intros Hsort Hopts Hin Hout line.
  assert (Hrange : in_range opts oc = false).
  { unfold in_range.
    destruct (0 <=? index oc) eqn:H0; [| reflexivity].
    destruct (index oc <? Z.of_nat (List.length opts)) eqn:H1;
      [lia | reflexivity]. }
  assert (Hline : underline opts oc = line).
  { unfold underline. now rewrite Hrange. }
  split; [| split; [exact Hline |]].
  - rewrite option_indices_start. cbn [fst snd].
    rewrite comment_line_underline by assumption.
    unfold points_at_empty. rewrite Hrange. cbn [andb]. now rewrite Hline.
  - intros Hfull.
    assert (Hocs : ocs <> []) by (intros ->; contradiction).
    assert (Hsorted : In oc (sort ocs)).
    { eapply Permutation_in; [apply Hsort | exact Hin]. }
    split; [now rewrite optionLines_returns |].
    split; [exact Hsorted |].
    rewrite <- Hline. now apply in_map.
Qed.

(** [out_of_range_line] with Go's insertion sort, on two options and a
    comment of index 2. *)
Lemma out_of_range_line_witness :
  let opts := ["zero"; "one"] in
  let oc := {| comment := "no such option"; index := 2 |} in
  let ocs := [ {| comment := "here"; index := 1 |}; oc ] in
  sort_contract insertionSort /\ opts <> [] /\ In oc ocs /\
  (index oc < 0 \/ Z.of_nat (List.length opts) <= index oc) /\
  comment_line (Z.of_nat (List.length opts))
    (fst (option_indices opts [0] 0)) (snd (option_indices opts [0] 0)) oc
  = Ok "         ^ no such option" /\
  underline opts oc = "         ^ no such option" /\
  (existsb (points_at_empty opts) ocs = false ->
   value (optionLines insertionSort opts ocs)
   = Ok (strings_Join opts " " :: map (underline opts) (insertionSort ocs)) /\
   In oc (insertionSort ocs) /\
   In "         ^ no such option" (map (underline opts) (insertionSort ocs))).
Proof.
  intros opts oc ocs.
  split; [exact insertionSort_contract |].
  split; [discriminate |].
  split; [right; left; reflexivity |].
  split; [right; simpl; lia |].
  apply (out_of_range_line insertionSort opts ocs oc).
  - exact insertionSort_contract.
  - discriminate.
  - right; left; reflexivity.
  - right; simpl; lia.
Defined.

(** C7, at a failing input: on the options [cmd], the empty string and
    [x], a comment on the second option makes [strings.Repeat] panic on
    the count -1, and [optionLines] does not return. *)
Theorem optionLines_panics_on_empty_option :
  in_range options_with_empty
    {| comment := "must not be empty"; index := 1 |} = true /\
  optionLines insertionSort options_with_empty comment_on_empty
  = Panic "strings: negative Repeat count" /\
  returns (optionLines insertionSort options_with_empty comment_on_empty)
  = false.
Proof. repeat split. Qed.

(** ** The lines of an error *)

Section ErrorLinesFacts.

Variable sort_Sort : list optionComment -> list optionComment.

(** [ErrorLines] returns when the wrapped error gives its text and
    [optionLines] returns, with the struct as the two calls leave it. *)
Lemma ErrorLines_returns (e : Error) (wrapped : option string) (w' : error)
    (rendered : list string) (ocs' : list optionComment) :
  wrapped_Error sort_Sort e = Ok (wrapped, w') ->
  optionLines sort_Sort (options e) (optionComments e) = Ok (rendered, ocs') ->
  Error_ErrorLines sort_Sort e
  = Ok ((beforeMessage e ++ [message_line (msg e) wrapped]
         ++ betweenMessageAndOptions e ++ rendered ++ afterOptions e)%list,
        {| optionComments := ocs'; options := options e;
           beforeMessage := beforeMessage e;
           betweenMessageAndOptions := betweenMessageAndOptions e;
           afterOptions := afterOptions e; err := w'; msg := msg e;
           exitCode := exitCode e; isExitCodeSet := isExitCodeSet e;
           temporary := temporary e; isTemporarySet := isTemporarySet e |}).
Proof.
  unfold wrapped_Error, Error_ErrorLines, ErrorLines_method, message_line.
  intros Hwrapped Hrendered. rewrite Hrendered.
  destruct (msg e =? "")%string; cbn [negb];
    destruct (err e) as [| p | v | text code t u];
    try (injection Hwrapped as <- <-; cbn [bind];
         now rewrite <- !app_assoc);
    destruct (error_Error sort_Sort _) as [[text' w''] | m];
    try discriminate;
    cbn [bind] in *; injection Hwrapped as <- <-;
    now rewrite <- !app_assoc.
Qed.

(** The lines without the state: every value. *)
Lemma ErrorLines_value (e : Error) :
  value (Error_ErrorLines sort_Sort e)
  = (wrapped <- value (wrapped_Error sort_Sort e) ;;
     rendered <- value (optionLines sort_Sort (options e) (optionComments e)) ;;
     Ok (beforeMessage e ++ [message_line (msg e) wrapped]
         ++ betweenMessageAndOptions e ++ rendered ++ afterOptions e)%list).
Proof.
  destruct (wrapped_Error sort_Sort e) as [[wrapped w'] | m] eqn:Hwrapped.
  - destruct (optionLines sort_Sort (options e) (optionComments e))
      as [[rendered ocs'] | m] eqn:Hrendered.
    + now rewrite (ErrorLines_returns e wrapped w' rendered ocs').
    + cbn [value bind].
      unfold Error_ErrorLines, ErrorLines_method.
      unfold wrapped_Error in Hwrapped. rewrite Hrendered.
      destruct (msg e =? "")%string; cbn [negb];
        destruct (err e) as [| p | v | text code t u];
        try reflexivity;
        destruct (error_Error sort_Sort _) as [[text' w''] | m'];
        try discriminate; reflexivity.
  - cbn [value bind].
    unfold Error_ErrorLines, ErrorLines_method.
    unfold wrapped_Error in Hwrapped.
    destruct (msg e =? "")%string; cbn [negb];
      destruct (err e) as [| p | v | text code t u];
      try discriminate;
      destruct (error_Error sort_Sort _) as [[text' w''] | m'];
      try discriminate; cbn [bind value] in *; congruence.
Qed.

Lemma Error_value (e : Error) :
  value (Error_Error sort_Sort e)
  = (lines <- value (Error_ErrorLines sort_Sort e) ;;
     Ok (strings_Join lines (String "010" ""))).
Proof.
  unfold Error_Error, Error_method, Error_ErrorLines.
  now destruct (ErrorLines_method sort_Sort (error_Error sort_Sort) e)
    as [[lines e'] | m].
Qed.

(** C5: the lines of a DecoratedError are its lines before the message,
    one message line, its lines between the message and the options, the
    lines of [optionLines] and its lines after the options; the message
    line is the message, a colon, a space and the text of the wrapped
    error when both are there, the one that is there when only one is,
    and a fixed line when none is; [Error()] joins the lines with
    newlines.  The call returns when the wrapped error gives its text and
    [optionLines] returns, and panics as they do otherwise.  The example
    of the specification has the five lines L0, M, L1, L2, L3. *)
Theorem ErrorLines_assembly (e : Error) :
  value (Error_ErrorLines sort_Sort e)
  = (wrapped <- value (wrapped_Error sort_Sort e) ;;
     rendered <- value (optionLines sort_Sort (options e) (optionComments e)) ;;
     Ok (beforeMessage e ++ [message_line (msg e) wrapped]
         ++ betweenMessageAndOptions e ++ rendered ++ afterOptions e)%list) /\
  value (Error_Error sort_Sort e)
  = (lines <- value (Error_ErrorLines sort_Sort e) ;;
     Ok (strings_Join lines (String "010" ""))) /\
  (forall (c : ascii) (message text : string),
     message_line (String c message) (Some text)
     = (String c message ++ ": " ++ text)%string /\
     message_line (String c message) None = String c message /\
     message_line "" (Some text) = text /\
     message_line "" None = "error without message or wrapped error") /\
  value (Error_ErrorLines sort_Sort five_lines)
  = Ok ["L0"; "M"; "L1"; "L2"; "L3"] /\
  value (Error_Error sort_Sort five_lines)
  = Ok (strings_Join ["L0"; "M"; "L1"; "L2"; "L3"] (String "010" "")).
Proof.
  split; [apply ErrorLines_value |].
  split; [apply Error_value |].
  split; [| split; reflexivity].
  intros c message text. repeat split.
Qed.

(** What a call of [ErrorLines] that returns leaves of the struct: the
    comments as [optionLines] leaves them, the wrapped error as its
    [Error()] leaves it, and the other fields as they were. *)
Lemma ErrorLines_frame (e e' : Error) (lines : list string) :
  Error_ErrorLines sort_Sort e = Ok (lines, e') ->
  (exists rendered,
     optionLines sort_Sort (options e) (optionComments e)
     = Ok (rendered, optionComments e')) /\
  options e' = options e /\
  beforeMessage e' = beforeMessage e /\
  betweenMessageAndOptions e' = betweenMessageAndOptions e /\
  afterOptions e' = afterOptions e /\
  msg e' = msg e /\
  exitCode e' = exitCode e /\ isExitCodeSet e' = isExitCodeSet e /\
  temporary e' = temporary e /\ isTemporarySet e' = isTemporarySet e.
Proof.
  intros Hcall. pose proof (ErrorLines_value e) as Hvalue.
  destruct (wrapped_Error sort_Sort e) as [[wrapped w'] | m] eqn:Hwrapped;
    [| rewrite Hcall in Hvalue; discriminate].
  destruct (optionLines sort_Sort (options e) (optionComments e))
    as [[rendered ocs'] | m] eqn:Hrendered;
    [| rewrite Hcall in Hvalue; discriminate].
  rewrite (ErrorLines_returns e wrapped w' rendered ocs') in Hcall
    by assumption.
  injection Hcall as _ <-. cbn.
  split; [now exists rendered | repeat split].
Qed.

(** The comments of the struct are sorted by the call. *)
Lemma ErrorLines_sorts_in_place (e e' : Error) (lines : list string) :
  Error_ErrorLines sort_Sort e = Ok (lines, e') ->
  options e <> [] -> optionComments e <> [] ->
  optionComments e' = sort_Sort (optionComments e).
Proof.
  intros Hcall Hopts Hocs.
  destruct (ErrorLines_frame e e' lines Hcall) as [[rendered Hrendered] _].
  rewrite optionLines_underline in Hrendered by assumption.
  destruct (existsb _ _); [discriminate |]. now injection Hrendered.
Qed.

End ErrorLinesFacts.

(** C10, at a failing input: the error of the test "with options with
    comments", whose comments were added for the options 1, 3 and 2.
    [ErrorLines] returns the eight lines the test expects, and leaves the
    comments of the error in the order 3, 2, 1. *)
Theorem ErrorLines_reorders_optionComments :
  commented_error = Some commented /\
  map index (optionComments commented) = [1; 3; 2] /\
  Error_ErrorLines insertionSort commented
  = Ok (["optional lines before the error message";
         "some error message";
         "Some lines between message and options";
         "zero one --two three";
         "               ^~~~~ invalid argument";
         "         ^~~~~ for this option";
         "     ^~~ cannot do sub-command";
         "Zero or more additional lines"],
        commented_sorted) /\
  map index (optionComments commented_sorted) = [3; 2; 1] /\
  optionComments commented_sorted <> optionComments commented.
Proof.
  split; [vm_compute; reflexivity |].
  split; [reflexivity |].
  split; [vm_compute; reflexivity |].
  split; [reflexivity |].
  discriminate.
Qed.

(** * Further properties *)

(** ** Overrides and wrapped errors *)

(** X1: the value given to [WithExitCode] (resp. [WithTemporary]) is what
    the entry point and the method return afterwards, whatever the struct
    held and wrapped before; of two calls the later one counts; and
    neither setter changes what the other attribute resolves to. *)
Theorem override_round_trip (e : Error) (code code' : Z) (t t' : bool) :
  (ExitCode (ptr_Error (WithExitCode (Some e) code)) = code /\
   option_map Error_ExitCode (WithExitCode (Some e) code) = Some code /\
   ExitCode (ptr_Error (WithExitCode (WithExitCode (Some e) code') code)) = code /\
   Temporary (ptr_Error (WithExitCode (Some e) code))
   = Temporary (ptr_Error (Some e)) /\
   option_map Error_Temporary (WithExitCode (Some e) code)
   = Some (Error_Temporary e)) /\
  (Temporary (ptr_Error (WithTemporary (Some e) t)) = t /\
   option_map Error_Temporary (WithTemporary (Some e) t) = Some t /\
   Temporary (ptr_Error (WithTemporary (WithTemporary (Some e) t') t)) = t /\
   ExitCode (ptr_Error (WithTemporary (Some e) t))
   = ExitCode (ptr_Error (Some e)) /\
   option_map Error_ExitCode (WithTemporary (Some e) t)
   = Some (Error_ExitCode e)).
Proof. repeat split. Qed.

(** X2: the structs of the package keep their unset overrides at the zero
    value: [New] and [MaybeWrap] return such a struct, and every setter
    called on one leaves one. *)
Theorem setters_keep_overrides_consistent (p : option Error) :
  consistent p ->
  (forall formatted, consistent (New formatted)) /\
  (forall w, consistent (MaybeWrap w)) /\
  (forall code, consistent (WithExitCode p code)) /\
  (forall t, consistent (WithTemporary p t)) /\
  (forall line, consistent (WithLineAfterOptions p line)) /\
  (forall lines, consistent (WithLinesAfterOptions p lines)) /\
  (forall line, consistent (WithLineBeforeMessage p line)) /\
  (forall lines, consistent (WithLinesBeforeMessage p lines)) /\
  (forall line, consistent (WithLineBetweenMessageAndOption p line)) /\
  (forall lines, consistent (WithLinesBetweenMessageAndOption p lines)) /\
  (forall formatted, consistent (WithMessage p formatted)) /\
  (forall i c, consistent (WithOptionComment p i c)) /\
  (forall opts, consistent (WithOptions p opts)) /\
  (forall w, consistent (WithWrap p w)).
Proof.
  intros Hp.
  split; [intros formatted; split; reflexivity |].
  split; [intros [| q | v | text code t u]; simpl; try exact I;
          split; reflexivity |].
  destruct p as [e |]; [| repeat split].
  destruct Hp as [Hcode Htemporary].
  repeat split; simpl; intros; try discriminate; auto.
Qed.

(** [setters_keep_overrides_consistent] on the error of the test, which
    was built by the setters. *)
Lemma setters_keep_overrides_consistent_witness :
  consistent (Some commented) /\
  consistent (WithExitCode (Some commented) 13) /\
  consistent (WithOptionComment (Some commented) 0 "for the command").
Proof.
  assert (Hp : consistent (Some commented)) by (split; reflexivity).
  split; [exact Hp |].
  pose proof (setters_keep_overrides_consistent (Some commented) Hp) as Hkept.
  split.
  - apply Hkept.
  - apply Hkept.
Defined.

(** X3: for a [*Error] whose unset overrides are at the zero value, a
    nonzero [ExitCode(err)] (resp. a true [Temporary(err)]) means that the
    pointer is not nil and that the override was set on that very struct:
    nothing that the struct wraps shows through the entry points. *)
Theorem entry_point_shows_own_override (p : option Error) :
  consistent p ->
  (ExitCode (ptr_Error p) <> 0 ->
   exists e, p = Some e /\ isExitCodeSet e = true /\
             exitCode e = ExitCode (ptr_Error p)) /\
  (Temporary (ptr_Error p) = true ->
   exists e, p = Some e /\ isTemporarySet e = true /\ temporary e = true).
Proof.
  intros Hp. destruct p as [e |]; simpl in *.
  - destruct Hp as [Hcode Htemporary]. split.
    + intros Hnonzero. exists e. unfold ExitCode in *. simpl in *.
      destruct (isExitCodeSet e); [auto |].
      exfalso. apply Hnonzero. now apply Hcode.
    + intros Htrue. exists e. unfold Temporary in *. simpl in *.
      destruct (isTemporarySet e); [auto |].
      rewrite Htemporary in Htrue by reflexivity. discriminate.
  - split; [intros H; now contradiction H | discriminate].
Qed.

Lemma entry_point_shows_own_override_witness :
  consistent (Some deep_override) /\
  (exists e, Some deep_override = Some e /\ isExitCodeSet e = true /\
             exitCode e = ExitCode (ptr_Error (Some deep_override))) /\
  (exists e, Some deep_override = Some e /\ isTemporarySet e = true /\
             temporary e = true).
Proof.
  assert (Hp : consistent (Some deep_override))
    by (split; intros; discriminate).
  split; [exact Hp |].
  destruct (entry_point_shows_own_override (Some deep_override) Hp)
    as [Hcode Htemporary].
  split.
  - apply Hcode. discriminate.
  - apply Htemporary. reflexivity.
Defined.

(** X4: [Unwrap] returns what was stored: the error given to [MaybeWrap]
    or, later, to [WithWrap], and nil after [New]; [MaybeWrap] returns the
    nil pointer for the nil interface only, so that a nil [*Error] given
    to it as an [error] is wrapped; and no other setter changes the
    wrapped error. *)
Theorem Unwrap_round_trip (e : Error) (w : error) :
  (MaybeWrap w = None <-> w = nil_error) /\
  (w <> nil_error -> option_map Error_Unwrap (MaybeWrap w) = Some w) /\
  (forall formatted, option_map Error_Unwrap (New formatted) = Some nil_error) /\
  option_map Error_Unwrap (WithWrap (Some e) w) = Some w /\
  (forall code, option_map Error_Unwrap (WithExitCode (Some e) code)
                = Some (Error_Unwrap e)) /\
  (forall t, option_map Error_Unwrap (WithTemporary (Some e) t)
             = Some (Error_Unwrap e)) /\
  (forall lines, option_map Error_Unwrap (WithLinesAfterOptions (Some e) lines)
                 = Some (Error_Unwrap e)) /\
  (forall lines, option_map Error_Unwrap (WithLinesBeforeMessage (Some e) lines)
                 = Some (Error_Unwrap e)) /\
  (forall lines,
     option_map Error_Unwrap (WithLinesBetweenMessageAndOption (Some e) lines)
     = Some (Error_Unwrap e)) /\
  (forall formatted, option_map Error_Unwrap (WithMessage (Some e) formatted)
                     = Some (Error_Unwrap e)) /\
  (forall i c, option_map Error_Unwrap (WithOptionComment (Some e) i c)
               = Some (Error_Unwrap e)) /\
  (forall opts, option_map Error_Unwrap (WithOptions (Some e) opts)
                = Some (Error_Unwrap e)).
Proof.
  split.
  { destruct w; simpl; split; intros H; try reflexivity; discriminate. }
  split.
  { intros Hw. destruct w; try reflexivity. congruence. }
  repeat split.
Qed.

Lemma Unwrap_round_trip_witness :
  ptr_Error None <> nil_error /\
  option_map Error_Unwrap (MaybeWrap (ptr_Error None)) = Some (ptr_Error None).
Proof.
  assert (Hw : ptr_Error None <> nil_error) by discriminate.
  split; [exact Hw |].
  exact (proj1 (proj2 (Unwrap_round_trip zero_Error (ptr_Error None))) Hw).
Defined.


(** ** Setters and the lines of an error *)

(** Both sides are the same lists appended in the same order. *)
Ltac flatten_app :=
  cbn [app]; repeat (rewrite <- app_assoc; cbn [app]); reflexivity.

Section LinesFacts.

Variable sort_Sort : list optionComment -> list optionComment.

(** X6: lines given to the setters come out in the order of the calls, in
    the group of the setter: when [ErrorLines] returns [lines] for an
    error, then after [WithLinesAfterOptions] it returns [lines] followed
    by the new lines; after [WithLinesBeforeMessage] the new lines stand
    between the earlier lines before the message and the rest; and after
    [WithLinesBetweenMessageAndOption] they stand right after the lines
    before the message, the message line and the earlier lines of that
    group. *)
Theorem line_setters_append (e : Error) (lines new : list string) :
  ptr_ErrorLines sort_Sort (Some e) = Ok lines ->
  ptr_ErrorLines sort_Sort (WithLinesAfterOptions (Some e) new)
  = Ok (lines ++ new)%list /\
  (exists rest,
     lines = (beforeMessage e ++ rest)%list /\
     ptr_ErrorLines sort_Sort (WithLinesBeforeMessage (Some e) new)
     = Ok (beforeMessage e ++ new ++ rest)%list) /\
  (exists head tail,
     lines = (head ++ tail)%list /\
     List.length head
     = (List.length (beforeMessage e) + 1
        + List.length (betweenMessageAndOptions e))%nat /\
     ptr_ErrorLines sort_Sort (WithLinesBetweenMessageAndOption (Some e) new)
     = Ok (head ++ new ++ tail)%list).
Proof.
  unfold ptr_ErrorLines. intros Hlines.
  rewrite ErrorLines_value in Hlines. unfold wrapped_Error in Hlines.
  unfold WithLinesAfterOptions, WithLinesBeforeMessage,
    WithLinesBetweenMessageAndOption, on_receiver.
  rewrite !ErrorLines_value. unfold wrapped_Error.
  cbn [err options optionComments beforeMessage betweenMessageAndOptions
       afterOptions msg].
  destruct (value _) as [wrapped | m]; cbn [bind] in *; [| discriminate].
  destruct (value (optionLines sort_Sort (options e) (optionComments e)))
    as [rendered | m]; cbn [bind] in *; [| discriminate].
  injection Hlines as <-.
  split; [| split].
  - f_equal. flatten_app.
  - eexists. split; [reflexivity |]. f_equal. flatten_app.
  - exists (beforeMessage e ++ [message_line (msg e) wrapped]
            ++ betweenMessageAndOptions e)%list.
    exists (rendered ++ afterOptions e)%list.
    split; [flatten_app |].
    split; [rewrite !length_app; simpl; lia |].
    f_equal. flatten_app.
Qed.

(** X7: the two halves of an error do not touch each other.  Setting the
    exit code or the temporary flag changes no line of [ErrorLines] and
    not the text of [Error()]; and the setters of lines, message, options
    and option comments change neither what [ExitCode] and [Temporary]
    resolve to nor what the methods return. *)
Theorem overrides_and_lines_apart (e : Error) :
  (forall code,
     ptr_ErrorLines sort_Sort (WithExitCode (Some e) code)
     = ptr_ErrorLines sort_Sort (Some e) /\
     ptr_Error_text sort_Sort (WithExitCode (Some e) code)
     = ptr_Error_text sort_Sort (Some e)) /\
  (forall t,
     ptr_ErrorLines sort_Sort (WithTemporary (Some e) t)
     = ptr_ErrorLines sort_Sort (Some e) /\
     ptr_Error_text sort_Sort (WithTemporary (Some e) t)
     = ptr_Error_text sort_Sort (Some e)) /\
  (forall lines, same_attributes e (WithLinesAfterOptions (Some e) lines)) /\
  (forall lines, same_attributes e (WithLinesBeforeMessage (Some e) lines)) /\
  (forall lines,
     same_attributes e (WithLinesBetweenMessageAndOption (Some e) lines)) /\
  (forall formatted, same_attributes e (WithMessage (Some e) formatted)) /\
  (forall opts, same_attributes e (WithOptions (Some e) opts)) /\
  (forall i c, same_attributes e (WithOptionComment (Some e) i c)).
Proof.
  split; [| split].
  - intros code. unfold ptr_ErrorLines, ptr_Error_text, WithExitCode, on_receiver.
    rewrite !Error_value, !ErrorLines_value. split; reflexivity.
  - intros t. unfold ptr_ErrorLines, ptr_Error_text, WithTemporary, on_receiver.
    rewrite !Error_value, !ErrorLines_value. split; reflexivity.
  - repeat split.
Qed.

Hypothesis sort_Sort_contract : sort_contract sort_Sort.

(** The number of lines of [optionLines]. *)
Lemma optionLines_length (opts : list string) (ocs ocs' : list optionComment)
    (rendered : list string) :
  optionLines sort_Sort opts ocs = Ok (rendered, ocs') ->
  List.length rendered = option_line_count opts ocs.
Proof.
  intros Hcall. destruct opts as [|opt opts].
  - rewrite optionLines_no_options in Hcall. now injection Hcall as <- _.
  - destruct ocs as [|oc ocs].
    + rewrite optionLines_no_comments in Hcall by discriminate.
      now injection Hcall as <- _.
    + rewrite optionLines_underline in Hcall by discriminate.
      destruct (existsb _ _); [discriminate |].
      injection Hcall as <- _. cbn [List.length option_line_count].
      rewrite length_map. f_equal.
      now rewrite <- (Permutation_length (proj1 sort_Sort_contract (oc :: ocs))).
Qed.

(** X8: when [ErrorLines] returns, the number of its lines is the number
    of lines before the message, one for the message, the number of lines
    between the message and the options, nothing for the options when
    there are none and otherwise one line for them and one for each
    comment, and the number of lines after the options. *)
Theorem ErrorLines_length (e : Error) (lines : list string) :
  ptr_ErrorLines sort_Sort (Some e) = Ok lines ->
  List.length lines
  = (List.length (beforeMessage e) + 1
     + List.length (betweenMessageAndOptions e)
     + option_line_count (options e) (optionComments e)
     + List.length (afterOptions e))%nat.
Proof.
  unfold ptr_ErrorLines. rewrite ErrorLines_value.
  destruct (value (wrapped_Error sort_Sort e)) as [wrapped | m];
    cbn [bind]; [| discriminate].
  destruct (optionLines sort_Sort (options e) (optionComments e))
    as [[rendered ocs'] | m] eqn:Hrendered; cbn [value bind]; [| discriminate].
  intros Hlines. injection Hlines as <-.
  rewrite length_app. cbn [List.length]. rewrite !length_app.
  rewrite (optionLines_length _ _ _ _ Hrendered). lia.
Qed.

(** X9: [optionLines] returns exactly when no comment in range points at
    an option that is the empty string; otherwise it panics in
    [strings.Repeat], and never on an index out of range.  In particular
    it returns whenever there are no options or no comments. *)
Theorem optionLines_returns_iff (opts : list string) (ocs : list optionComment) :
  (returns (optionLines sort_Sort opts ocs) = true <->
   existsb (points_at_empty opts) ocs = false) /\
  (returns (optionLines sort_Sort opts ocs) = false ->
   optionLines sort_Sort opts ocs = Panic "strings: negative Repeat count") /\
  (opts = [] \/ ocs = [] -> returns (optionLines sort_Sort opts ocs) = true).
Proof.
  assert (Hnone : existsb (points_at_empty []) ocs = false).
  { induction ocs as [|oc ocs IH]; [reflexivity |]. simpl. rewrite IH.
    unfold points_at_empty, in_range. simpl.
    destruct (0 <=? index oc) eqn:H0, (index oc <? 0) eqn:H1;
      try reflexivity; lia. }
  destruct opts as [|opt opts].
  { rewrite optionLines_no_options. simpl. rewrite Hnone.
    repeat split; auto; discriminate. }
  destruct ocs as [|oc ocs].
  { rewrite optionLines_no_comments by discriminate. simpl.
    repeat split; auto; discriminate. }
  rewrite optionLines_underline by discriminate.
  rewrite existsb_sort by assumption.
  destruct (existsb (points_at_empty (opt :: opts)) (oc :: ocs)); simpl.
  - repeat split; try discriminate; auto.
    intros [H | H]; discriminate.
  - repeat split; auto; discriminate.
Qed.

End LinesFacts.

Lemma line_setters_append_witness :
  ptr_ErrorLines insertionSort (Some five_lines)
  = Ok ["L0"; "M"; "L1"; "L2"; "L3"] /\
  ptr_ErrorLines insertionSort (WithLinesAfterOptions (Some five_lines) ["L4"])
  = Ok ["L0"; "M"; "L1"; "L2"; "L3"; "L4"].
Proof.
  split; [reflexivity |].
  apply (line_setters_append insertionSort five_lines
           ["L0"; "M"; "L1"; "L2"; "L3"] ["L4"]).
  reflexivity.
Defined.

Lemma ErrorLines_length_witness :
  sort_contract insertionSort /\
  ptr_ErrorLines insertionSort (Some commented)
  = Ok ["optional lines before the error message";
        "some error message";
        "Some lines between message and options";
        "zero one --two three";
        "               ^~~~~ invalid argument";
        "         ^~~~~ for this option";
        "     ^~~ cannot do sub-command";
        "Zero or more additional lines"] /\
  8%nat = (List.length (beforeMessage commented) + 1
           + List.length (betweenMessageAndOptions commented)
           + option_line_count (options commented) (optionComments commented)
           + List.length (afterOptions commented))%nat.
Proof.
  split; [exact insertionSort_contract |].
  split; [vm_compute; reflexivity |].
  apply (ErrorLines_length insertionSort insertionSort_contract commented
           ["optional lines before the error message";
            "some error message";
            "Some lines between message and options";
            "zero one --two three";
            "               ^~~~~ invalid argument";
            "         ^~~~~ for this option";
            "     ^~~ cannot do sub-command";
            "Zero or more additional lines"]).
  vm_compute; reflexivity.
Defined.

Lemma optionLines_returns_iff_witness :
  sort_contract insertionSort /\
  returns (optionLines insertionSort options_with_empty comment_on_empty) = false /\
  optionLines insertionSort options_with_empty comment_on_empty
  = Panic "strings: negative Repeat count".
Proof.
  split; [exact insertionSort_contract |].
  split; [reflexivity |].
  apply (optionLines_returns_iff insertionSort insertionSort_contract
           options_with_empty comment_on_empty).
  reflexivity.
Defined.

(** ** The diagram of [optionLines] *)

Lemma substring_all (a : string) : substring 0 (String.length a) a = a.
Proof. induction a as [|c a IH]; simpl; [reflexivity | now rewrite IH]. Qed.

Lemma substring_prefix (a b : string) :
  substring 0 (String.length a) (a ++ b) = a.
Proof. induction a as [|c a IH]; simpl; [now destruct b | now rewrite IH]. Qed.

Lemma substring_skip (a b : string) (n m : nat) :
  substring (String.length a + n) m (a ++ b) = substring n m b.
Proof. induction a as [|c a IH]; simpl; [reflexivity | exact IH]. Qed.

Lemma length_copies (s : string) (n : nat) :
  String.length (copies s n) = (n * String.length s)%nat.
Proof.
  induction n as [|n IH]; simpl; [reflexivity |].
  now rewrite length_append, IH.
Qed.

(** In the joined line each option stands at its start column. *)
Lemma option_in_joined_line (opts : list string) (i : nat) :
  (i < List.length opts)%nat ->
  substring (Z.to_nat (start_column opts i)) (String.length (nth i opts ""))
    (strings_Join opts " ")
  = nth i opts "".
Proof.
  revert i. induction opts as [|opt opts IH]; intros i Hi; simpl in Hi;
    [lia |].
  destruct i as [|i].
  - cbn [start_column nth Z.to_nat]. destruct opts as [|opt' opts].
    + apply substring_all.
    + apply (substring_prefix opt (" " ++ strings_Join (opt' :: opts) " ")).
  - destruct opts as [|opt' opts]; [simpl in Hi; lia |].
    change (strings_Join (opt :: opt' :: opts) " ")
      with (opt ++ " " ++ strings_Join (opt' :: opts) " ")%string.
    change (start_column (opt :: opt' :: opts) (S i))
      with (len opt + 1 + start_column (opt' :: opts) i).
    change (nth (S i) (opt :: opt' :: opts) "") with (nth i (opt' :: opts) "").
    pose proof (start_column_nonneg (opt' :: opts) i) as Hnonneg.
    replace (Z.to_nat (len opt + 1 + start_column (opt' :: opts) i))
      with (String.length opt
            + (1 + Z.to_nat (start_column (opt' :: opts) i)))%nat
      by (unfold len; lia).
    rewrite substring_skip.
    change (1 + Z.to_nat (start_column (opt' :: opts) i))%nat
      with (String.length " " + Z.to_nat (start_column (opt' :: opts) i))%nat.
    rewrite substring_skip. apply IH. cbn [List.length] in *. lia.
Qed.

(** The shape of [underline] for a comment in range on an option that is
    not empty: spaces up to the start column of the option, a mark made
    of the caret and tildes, a space and the comment; the mark is as long
    as the option, which is what the joined line holds at that column. *)
Lemma underline_shape (opts : list string) (oc : optionComment) :
  in_range opts oc = true -> option_at opts oc <> "" ->
  let column := Z.to_nat (start_column opts (Z.to_nat (index oc))) in
  let mark := ("^" ++ copies "~" (String.length (option_at opts oc) - 1))%string in
  underline opts oc = (copies " " column ++ mark ++ " " ++ comment oc)%string /\
  String.length (copies " " column) = column /\
  String.length mark = String.length (option_at opts oc) /\
  substring column (String.length mark) (strings_Join opts " ")
  = option_at opts oc.
Proof.
  intros Hrange Hfull column mark.
  assert (Hlength : String.length mark = String.length (option_at opts oc)).
  { unfold mark. rewrite length_append, length_copies. simpl.
    destruct (option_at opts oc); [congruence | simpl; lia]. }
  split; [| split; [| split]].
  - unfold underline. now rewrite Hrange.
  - rewrite length_copies. simpl. lia.
  - exact Hlength.
  - rewrite Hlength. apply option_in_joined_line.
    unfold in_range in Hrange.
    destruct (0 <=? index oc) eqn:H0; [| discriminate].
    destruct (index oc <? Z.of_nat (List.length opts)) eqn:H1;
      [lia | discriminate].
Qed.

Lemma start_column_monotone (opts : list string) (i j : nat) :
  (i <= j)%nat -> start_column opts i <= start_column opts j.
Proof.
  revert i j. induction opts as [|opt opts IH]; intros i j Hij.
  - destruct i, j; simpl; lia.
  - destruct i as [|i], j as [|j]; try lia.
    + rewrite start_column_0. apply start_column_nonneg.
    + change (len opt + 1 + start_column opts i
              <= len opt + 1 + start_column opts j).
      specialize (IH i j). lia.
Qed.

Lemma StronglySorted_weaken {T : Type} (P : T -> Prop) (R R' : T -> T -> Prop)
    (l : list T) :
  (forall a b, P a -> P b -> R a b -> R' a b) ->
  Forall P l -> StronglySorted R l -> StronglySorted R' l.
Proof.
  intros Himpl Hall Hsorted.
  induction Hsorted as [|a l Hl IH Ha]; [constructor |].
  inversion Hall as [|? ? Hpa Hpl]; subst.
  constructor; [now apply IH |].
  rewrite Forall_forall in *. intros b Hb. apply Himpl; auto.
Qed.

(** In the sorted order of comments without a negative index the caret
    columns do not increase, and [underline] has its caret at the caret
    column. *)
Lemma caret_column_descends (sort : list optionComment -> list optionComment)
    (opts : list string) (ocs : list optionComment) :
  sort_contract sort -> opts <> [] ->
  Forall (fun oc => 0 <= index oc) ocs ->
  StronglySorted (fun above below => caret_column opts below <= caret_column opts above)
    (sort ocs) /\
  (forall oc, exists rest,
     underline opts oc
     = (copies " " (Z.to_nat (caret_column opts oc)) ++ String "^" rest)%string).
Proof.
  intros Hsort Hopts Hnonneg. split.
  - apply (StronglySorted_weaken (fun oc => 0 <= index oc)
             (fun a b => index b <= index a)).
    + intros a b Ha Hb Hab. unfold caret_column, in_range.
      replace (0 <=? index a) with true by lia.
      replace (0 <=? index b) with true by lia. cbn [andb].
      destruct (index a <? Z.of_nat (List.length opts)) eqn:Hina.
      * replace (index b <? Z.of_nat (List.length opts)) with true by lia.
        apply start_column_monotone. lia.
      * rewrite <- start_column_end by assumption.
        destruct (index b <? Z.of_nat (List.length opts)) eqn:Hinb; [| lia].
        apply start_column_monotone. lia.
    + eapply Permutation_Forall; [apply Hsort | exact Hnonneg].
    + now apply sort_Sort_descending.
  - intros oc. unfold underline, caret_column.
    destruct (in_range opts oc).
    + eexists. reflexivity.
    + eexists.
      replace (Z.to_nat (len (strings_Join opts " ") + 1))
        with (S (String.length (strings_Join opts " "))) by (unfold len; lia).
      reflexivity.
Qed.

Lemma leading_spaces_copies (n : nat) (rest : string) :
  leading_spaces (copies " " n ++ String "^" rest) = n.
Proof. induction n as [|n IH]; simpl; [reflexivity | now rewrite IH]. Qed.

Lemma StronglySorted_map {T U : Type} (f : T -> U) (R : U -> U -> Prop)
    (l : list T) :
  StronglySorted (fun a b => R (f a) (f b)) l -> StronglySorted R (map f l).
Proof.
  induction 1 as [|a l Hl IH Ha]; simpl; constructor; [assumption |].
  apply Forall_map. exact Ha.
Qed.

(** The body of the second loop, on the indices and the length that the
    first loop of [optionLines] computes. *)
Lemma comment_line_of_optionLines (opts : list string) (oc : optionComment) :
  opts <> [] -> points_at_empty opts oc = false ->
  comment_line (Z.of_nat (List.length opts))
    (fst (option_indices opts [0] 0)) (snd (option_indices opts [0] 0)) oc
  = Ok (underline opts oc).
Proof.
  intros Hopts Hfull. rewrite option_indices_start. cbn [fst snd].
  rewrite comment_line_underline by assumption. now rewrite Hfull.
Qed.

(** X10: the underline lies under the option.  When [optionLines] is
    given a comment in range among comments of which none points at an
    empty option, it returns the joined line followed by the lines of the
    comments in their sorted order, and the line of that comment, which
    is also what the body of the loop returns for it, is made of spaces
    up to the start column of its option, a mark made of the caret and
    tildes, a space and the comment; the mark is as long as the option,
    and the characters of the returned joined line above the mark are the
    option. *)
Theorem underline_under_option
    (sort : list optionComment -> list optionComment)
    (opts : list string) (ocs : list optionComment) (oc : optionComment) :
  sort_contract sort -> In oc ocs -> in_range opts oc = true ->
  existsb (points_at_empty opts) ocs = false ->
  let column := Z.to_nat (start_column opts (Z.to_nat (index oc))) in
  let mark := ("^" ++ copies "~" (String.length (option_at opts oc) - 1))%string in
  let line := (copies " " column ++ mark ++ " " ++ comment oc)%string in
  comment_line (Z.of_nat (List.length opts))
    (fst (option_indices opts [0] 0)) (snd (option_indices opts [0] 0)) oc
  = Ok line /\
  exists (joined : string) (lines : list string) (k : nat),
    optionLines sort opts ocs = Ok (joined :: lines, sort ocs) /\
    nth_error (sort ocs) k = Some oc /\
    nth_error lines k = Some line /\
    leading_spaces line = column /\
    String.length mark = String.length (option_at opts oc) /\
    substring column (String.length mark) joined = option_at opts oc.
Proof.
  intros Hsort Hin Hrange Hfull column mark line.
  assert (Hopts : opts <> []).
  { intros ->. unfold in_range in Hrange. simpl in Hrange.
    destruct (0 <=? index oc) eqn:H0, (index oc <? 0) eqn:H1;
      try discriminate; lia. }
  assert (Hocs : ocs <> []) by (intros ->; contradiction).
  assert (Hoc : points_at_empty opts oc = false).
  { destruct (points_at_empty opts oc) eqn:Hempty; [| reflexivity].
    rewrite <- Hfull. symmetry. apply existsb_exists. now exists oc. }
  assert (Hnonempty : option_at opts oc <> "").
  { unfold points_at_empty in Hoc. rewrite Hrange in Hoc. cbn [andb] in Hoc.
    now apply String.eqb_neq. }
  destruct (underline_shape opts oc Hrange Hnonempty)
    as [Hline [_ [Hmark Habove]]].
  fold column in Hline, Habove. fold mark in Hline, Hmark, Habove.
  fold line in Hline.
  split.
  { rewrite comment_line_of_optionLines by assumption. now rewrite Hline. }
  assert (Hsorted : In oc (sort ocs)).
  { eapply Permutation_in; [apply Hsort | exact Hin]. }
  destruct (In_nth_error _ _ Hsorted) as [k Hk].
  exists (strings_Join opts " "), (map (underline opts) (sort ocs)), k.
  split; [now apply optionLines_returns |].
  split; [exact Hk |].
  split; [rewrite <- Hline; now apply map_nth_error |].
  split; [| split; assumption].
  unfold line, mark. cbn [append]. apply leading_spaces_copies.
Qed.

(** [underline_under_option] with Go's insertion sort, on the example of
    the README and its comment on the second option. *)
Lemma underline_under_option_witness :
  let oc := {| comment := "for this option"; index := 1 |} in
  sort_contract insertionSort /\ In oc usage_comments /\
  in_range usage_options oc = true /\
  existsb (points_at_empty usage_options) usage_comments = false /\
  exists (joined : string) (lines : list string) (k : nat),
    optionLines insertionSort usage_options usage_comments
    = Ok (joined :: lines, insertionSort usage_comments) /\
    nth_error (insertionSort usage_comments) k = Some oc /\
    nth_error lines k = Some "     ^~~~~ for this option" /\
    leading_spaces "     ^~~~~ for this option" = 5%nat /\
    String.length "^~~~~" = String.length "--one" /\
    substring 5 (String.length "^~~~~") joined = "--one".
Proof.
  intros oc.
  assert (Hin : In oc usage_comments) by (right; right; left; reflexivity).
  assert (Hrange : in_range usage_options oc = true) by reflexivity.
  assert (Hfull : existsb (points_at_empty usage_options) usage_comments = false)
    by reflexivity.
  split; [exact insertionSort_contract |]. split; [exact Hin |].
  split; [exact Hrange |]. split; [exact Hfull |].
  exact (proj2 (underline_under_option insertionSort usage_options
                  usage_comments oc insertionSort_contract Hin Hrange Hfull)).
Defined.

(** X11: the carets of the diagram never move to the right from one line
    to the next.  On options and comments of which none has a negative
    index or points at an empty option, [optionLines] returns the joined
    line and then lines each made of spaces, a caret and more, in which
    no line starts with more spaces than a line above it; the number of
    those spaces is the start column of the option of the comment, or one
    more than the length of the joined line and its space when the
    comment is out of range. *)
Theorem carets_descend (sort : list optionComment -> list optionComment)
    (opts : list string) (ocs : list optionComment) :
  sort_contract sort -> opts <> [] -> ocs <> [] ->
  Forall (fun oc => 0 <= index oc) ocs ->
  existsb (points_at_empty opts) ocs = false ->
  exists lines,
    optionLines sort opts ocs = Ok (strings_Join opts " " :: lines, sort ocs) /\
    StronglySorted
      (fun above below => (leading_spaces below <= leading_spaces above)%nat)
      lines /\
    Forall (fun line =>
              exists rest,
                line = (copies " " (leading_spaces line) ++ String "^" rest)%string)
      lines /\
    map leading_spaces lines
    = map (fun oc => Z.to_nat (caret_column opts oc)) (sort ocs).
Proof.
  intros Hsort Hopts Hocs Hnonneg Hfull.
  destruct (caret_column_descends sort opts ocs Hsort Hopts Hnonneg)
    as [Hdescends Hcaret].
  assert (Hspaces : forall oc,
            leading_spaces (underline opts oc)
            = Z.to_nat (caret_column opts oc)).
  { intros oc. destruct (Hcaret oc) as [rest ->].
    apply leading_spaces_copies. }
  exists (map (underline opts) (sort ocs)).
  split; [now apply optionLines_returns |].
  split; [| split].
  - apply StronglySorted_map.
    apply (StronglySorted_weaken (fun _ => True)
             (fun above below => caret_column opts below
                                 <= caret_column opts above)).
    + intros a b _ _ Hab. rewrite !Hspaces. lia.
    + apply Forall_forall. intros; exact I.
    + exact Hdescends.
  - apply Forall_map, Forall_forall. intros oc _.
    destruct (Hcaret oc) as [rest Hrest]. exists rest.
    now rewrite Hspaces.
  - rewrite map_map. apply map_ext. exact Hspaces.
Qed.

(** [carets_descend] with Go's insertion sort, on the example of the
    README. *)
Lemma carets_descend_witness :
  sort_contract insertionSort /\ usage_options <> [] /\
  usage_comments_ascending <> [] /\
  Forall (fun oc => 0 <= index oc) usage_comments_ascending /\
  existsb (points_at_empty usage_options) usage_comments_ascending = false /\
  exists lines,
    optionLines insertionSort usage_options usage_comments_ascending
    = Ok (strings_Join usage_options " " :: lines,
          insertionSort usage_comments_ascending) /\
    StronglySorted
      (fun above below => (leading_spaces below <= leading_spaces above)%nat)
      lines /\
    Forall (fun line =>
              exists rest,
                line = (copies " " (leading_spaces line) ++ String "^" rest)%string)
      lines /\
    map leading_spaces lines
    = map (fun oc => Z.to_nat (caret_column usage_options oc))
        (insertionSort usage_comments_ascending).
Proof.
  assert (Hopts : usage_options <> []) by discriminate.
  assert (Hocs : usage_comments_ascending <> []) by discriminate.
  assert (Hnonneg : Forall (fun oc => 0 <= index oc) usage_comments_ascending).
  { repeat constructor; simpl; lia. }
  assert (Hfull : existsb (points_at_empty usage_options)
                    usage_comments_ascending = false) by reflexivity.
  split; [exact insertionSort_contract |].
  split; [exact Hopts |]. split; [exact Hocs |].
  split; [exact Hnonneg |]. split; [exact Hfull |].
  exact (carets_descend insertionSort usage_options usage_comments_ascending
           insertionSort_contract Hopts Hocs Hnonneg Hfull).
Defined.

(** ** Calls of [ErrorLines] and the struct *)

Section StateFacts.

Variable sort_Sort : list optionComment -> list optionComment.

(** X12: an error whose wrapped error is a nil [*Error] cannot be shown:
    [ErrorLines] and [Error()] call the method [Error()] through the nil
    pointer and panic, whatever the other fields hold. *)
Theorem nil_pointer_wrapped_panics (e : Error) :
  err e = ptr_Error None ->
  Error_ErrorLines sort_Sort e
  = Panic "value method goerr.Error.Error called using nil *Error pointer" /\
  Error_Error sort_Sort e
  = Panic "value method goerr.Error.Error called using nil *Error pointer" /\
  ExitCode (ptr_Error (Some e)) = exitCode e /\
  Temporary (ptr_Error (Some e)) = temporary e.
Proof.
  intros Hwrapped.
  assert (Hlines : Error_ErrorLines sort_Sort e
            = Panic "value method goerr.Error.Error called using nil *Error pointer").
  { unfold Error_ErrorLines, ErrorLines_method. rewrite Hwrapped.
    now destruct (msg e =? "")%string. }
  split; [exact Hlines |].
  split; [| split; reflexivity].
  unfold Error_Error, Error_method. fold (Error_ErrorLines sort_Sort e).
  now rewrite Hlines.
Qed.

(** X13: the text of a fresh error.  Around an error whose [Error()]
    returns [text], the error of [MaybeWrap] has the one line [text], and
    with a message [m] given by [WithMessage] the text [m: text]; the
    error of [New] has its message as text, and the fixed line when the
    message is empty. *)
Theorem fresh_error_text (w w' : error) (text : string) (c : ascii)
    (message : string) :
  error_Error sort_Sort w = Ok (text, w') ->
  ptr_ErrorLines sort_Sort (MaybeWrap w) = Ok [text] /\
  ptr_Error_text sort_Sort (MaybeWrap w) = Ok text /\
  ptr_Error_text sort_Sort (WithMessage (MaybeWrap w) (String c message))
  = Ok (String c message ++ ": " ++ text)%string /\
  ptr_Error_text sort_Sort (New (String c message)) = Ok (String c message) /\
  ptr_Error_text sort_Sort (New "")
  = Ok "error without message or wrapped error".
Proof.
  intros Htext.
  split; [| split; [| split; [| split; reflexivity]]];
    destruct w as [| p | v | t code tmp u]; try discriminate;
    unfold ptr_ErrorLines, ptr_Error_text, MaybeWrap, WithMessage, on_receiver;
    rewrite ?Error_value, ErrorLines_value; unfold wrapped_Error;
    cbn [err msg options optionComments beforeMessage
         betweenMessageAndOptions afterOptions];
    rewrite Htext; reflexivity.
Qed.

Hypothesis sort_Sort_contract : sort_contract sort_Sort.

Lemma optionLines_Permutation (opts : list string) (ocs ocs' : list optionComment)
    (rendered : list string) :
  optionLines sort_Sort opts ocs = Ok (rendered, ocs') ->
  Permutation ocs ocs'.
Proof.
  intros Hcall. destruct opts as [|opt opts].
  - rewrite optionLines_no_options in Hcall. now injection Hcall as _ <-.
  - destruct ocs as [|oc ocs].
    + rewrite optionLines_no_comments in Hcall by discriminate.
      now injection Hcall as _ <-.
    + rewrite optionLines_underline in Hcall by discriminate.
      destruct (existsb _ _); [discriminate |].
      injection Hcall as _ <-. apply sort_Sort_contract.
Qed.

(** X14: what [ErrorLines] leaves of the struct when it returns.  The
    option comments are the same comments, possibly in another order, and
    the options, the three groups of lines, the message and the two
    overrides with their flags are as they were, so that [ExitCode] and
    [Temporary] on the [*Error] are as before. *)
Theorem ErrorLines_keeps_fields (e e' : Error) (lines : list string) :
  Error_ErrorLines sort_Sort e = Ok (lines, e') ->
  Permutation (optionComments e) (optionComments e') /\
  options e' = options e /\
  beforeMessage e' = beforeMessage e /\
  betweenMessageAndOptions e' = betweenMessageAndOptions e /\
  afterOptions e' = afterOptions e /\
  msg e' = msg e /\
  exitCode e' = exitCode e /\ isExitCodeSet e' = isExitCodeSet e /\
  temporary e' = temporary e /\ isTemporarySet e' = isTemporarySet e /\
  ExitCode (ptr_Error (Some e')) = ExitCode (ptr_Error (Some e)) /\
  Temporary (ptr_Error (Some e')) = Temporary (ptr_Error (Some e)).
Proof.
  intros Hcall.
  destruct (ErrorLines_frame sort_Sort e e' lines Hcall)
    as [[rendered Hrendered] [Ho [Hb [Hbw [Ha [Hm [Hc [Hcs [Ht Hts]]]]]]]]].
  split; [now apply (optionLines_Permutation _ _ _ _ Hrendered) |].
  repeat (split; [assumption |]). exact Ht.
Qed.

Lemma optionLines_again (opts : list string) (ocs ocs' : list optionComment)
    (rendered : list string) :
  NoDup (map index ocs) ->
  optionLines sort_Sort opts ocs = Ok (rendered, ocs') ->
  optionLines sort_Sort opts ocs' = Ok (rendered, ocs').
Proof.
  intros Hnodup Hcall. destruct opts as [|opt opts].
  - rewrite optionLines_no_options in Hcall. now injection Hcall as <- <-.
  - destruct ocs as [|oc ocs].
    + rewrite optionLines_no_comments in Hcall by discriminate.
      now injection Hcall as <- <-.
    + rewrite optionLines_underline in Hcall by discriminate.
      destruct (existsb _ (sort_Sort (oc :: ocs))) eqn:Hfull; [discriminate |].
      injection Hcall as <- <-.
      destruct sort_Sort_contract as [Hperm Hsorted].
      assert (Hagain : sort_Sort (sort_Sort (oc :: ocs)) = sort_Sort (oc :: ocs)).
      { apply in_order_unique; auto.
        - apply Permutation_sym, Hperm.
        - eapply Permutation_NoDup; [| exact Hnodup].
          apply Permutation_map. rewrite <- Hperm. apply Hperm. }
      assert (Hne : sort_Sort (oc :: ocs) <> []).
      { intros Hnil. specialize (Hperm (oc :: ocs)). rewrite Hnil in Hperm.
        apply Permutation_sym, Permutation_nil in Hperm. discriminate. }
      rewrite optionLines_underline by (assumption || discriminate).
      now rewrite Hagain, Hfull.
Qed.

(** X15: a second call shows the same lines.  When the indices of the
    option comments are pairwise distinct and the [Error()] of the
    wrapped error leaves that error as it is, the struct that a call of
    [ErrorLines] leaves is not changed by a further call, which returns
    the same lines. *)
Theorem ErrorLines_again (e e' : Error) (lines : list string)
    (wrapped : option string) :
  NoDup (map index (optionComments e)) ->
  wrapped_Error sort_Sort e = Ok (wrapped, err e) ->
  Error_ErrorLines sort_Sort e = Ok (lines, e') ->
  Error_ErrorLines sort_Sort e' = Ok (lines, e').
Proof.
  intros Hnodup Hwrapped Hcall.
  destruct (optionLines sort_Sort (options e) (optionComments e))
    as [[rendered ocs'] | m] eqn:Hrendered.
  - rewrite (ErrorLines_returns sort_Sort e wrapped (err e) rendered ocs'
               Hwrapped Hrendered) in Hcall.
    injection Hcall as <- <-.
    match goal with
    | |- Error_ErrorLines _ ?after = _ =>
        rewrite (ErrorLines_returns sort_Sort after wrapped (err e) rendered ocs')
    end.
    + reflexivity.
    + exact Hwrapped.
    + cbn [options optionComments].
      now apply (optionLines_again _ (optionComments e)).
  - pose proof (ErrorLines_value sort_Sort e) as Hvalue.
    rewrite Hcall, Hwrapped, Hrendered in Hvalue. discriminate.
Qed.

End StateFacts.

Lemma nil_pointer_wrapped_panics_witness :
  exists e,
    MaybeWrap (ptr_Error (MaybeWrap nil_error)) = Some e /\
    err e = ptr_Error None /\
    Error_Error insertionSort e
    = Panic "value method goerr.Error.Error called using nil *Error pointer".
Proof.
  eexists. split; [reflexivity |]. split; [reflexivity |].
  apply nil_pointer_wrapped_panics. reflexivity.
Defined.

Lemma fresh_error_text_witness :
  let w := foreign "strconv.Atoi: parsing" None None None in
  error_Error insertionSort w = Ok ("strconv.Atoi: parsing", w) /\
  ptr_Error_text insertionSort (WithMessage (MaybeWrap w) "cannot parse option")
  = Ok "cannot parse option: strconv.Atoi: parsing".
Proof.
  intros w. split; [reflexivity |].
  apply (fresh_error_text insertionSort w w "strconv.Atoi: parsing"
           "c" "annot parse option").
  reflexivity.
Defined.

Lemma ErrorLines_keeps_fields_witness :
  sort_contract insertionSort /\
  (exists lines, Error_ErrorLines insertionSort commented
                 = Ok (lines, commented_sorted)) /\
  Permutation (optionComments commented) (optionComments commented_sorted).
Proof.
  split; [exact insertionSort_contract |].
  assert (Hcall :
    Error_ErrorLines insertionSort commented
    = Ok (["optional lines before the error message";
           "some error message";
           "Some lines between message and options";
           "zero one --two three";
           "               ^~~~~ invalid argument";
           "         ^~~~~ for this option";
           "     ^~~ cannot do sub-command";
           "Zero or more additional lines"], commented_sorted))
    by (vm_compute; reflexivity).
  split; [eexists; exact Hcall |].
  apply (ErrorLines_keeps_fields insertionSort insertionSort_contract
           commented commented_sorted _ Hcall).
Defined.

Lemma ErrorLines_again_witness :
  sort_contract insertionSort /\
  NoDup (map index (optionComments commented)) /\
  wrapped_Error insertionSort commented = Ok (None, err commented) /\
  exists lines,
    Error_ErrorLines insertionSort commented = Ok (lines, commented_sorted) /\
    Error_ErrorLines insertionSort commented_sorted
    = Ok (lines, commented_sorted).
Proof.
  assert (Hnodup : NoDup (map index (optionComments commented))).
  { repeat constructor; simpl; intuition discriminate. }
  assert (Hwrapped : wrapped_Error insertionSort commented
                     = Ok (None, err commented)) by reflexivity.
  assert (Hcall :
    Error_ErrorLines insertionSort commented
    = Ok (["optional lines before the error message";
           "some error message";
           "Some lines between message and options";
           "zero one --two three";
           "               ^~~~~ invalid argument";
           "         ^~~~~ for this option";
           "     ^~~ cannot do sub-command";
           "Zero or more additional lines"], commented_sorted))
    by (vm_compute; reflexivity).
  split; [exact insertionSort_contract |].
  split; [exact Hnodup |]. split; [exact Hwrapped |].
  eexists. split; [exact Hcall |].
  apply (ErrorLines_again insertionSort insertionSort_contract
           commented commented_sorted _ None Hnodup Hwrapped Hcall).
Defined.

(** ** The methods of [optionCommentSlice] *)

Lemma at_index_nth_error {A : Type} (x : list A) (i : Z) (a : A) :
  at_index x i = Ok a <-> 0 <= i /\ nth_error x (Z.to_nat i) = Some a.
Proof.
  unfold at_index. destruct (i <? 0) eqn:Hneg.
  - split; [discriminate | lia].
  - destruct (nth_error x (Z.to_nat i)) as [b |]; split.
    + intros H. injection H as <-. split; [lia | reflexivity].
    + intros [_ H]. now injection H as <-.
    + discriminate.
    + intros [_ H]. discriminate.
Qed.

Lemma at_index_in_range {A : Type} (x : list A) (i : Z) :
  0 <= i < Z.of_nat (List.length x) -> exists a, at_index x i = Ok a.
Proof.
  intros Hi. destruct (nth_error x (Z.to_nat i)) as [a |] eqn:Hnth.
  - exists a. apply at_index_nth_error. split; [lia | assumption].
  - apply nth_error_None in Hnth. lia.
Qed.

Lemma at_index_out_of_range {A : Type} (x : list A) (i : Z) :
  i < 0 \/ Z.of_nat (List.length x) <= i ->
  at_index x i = Panic "index out of range".
Proof.
  intros Hi. unfold at_index. destruct (i <? 0) eqn:Hneg; [reflexivity |].
  replace (nth_error x (Z.to_nat i)) with (@None A); [reflexivity |].
  symmetry. apply nth_error_None. lia.
Qed.

Lemma length_store {A : Type} (x : list A) (i : nat) (v : A) :
  List.length (store x i v) = List.length x.
Proof.
  revert i. induction x as [|a x IH]; intros [|i]; simpl; auto.
Qed.

Lemma nth_error_store {A : Type} (x : list A) (i k : nat) (v : A) :
  nth_error (store x i v) k
  = if (k =? i)%nat then
      if (k <? List.length x)%nat then Some v else None
    else nth_error x k.
Proof.
  revert i k. induction x as [|a x IH]; intros i k.
  - simpl. destruct i; simpl; destruct (k =? _)%nat; now destruct k.
  - destruct i as [|i], k as [|k]; try reflexivity.
    cbn [store nth_error]. rewrite IH. reflexivity.
Qed.

Lemma store_Permutation {A : Type} (x : list A) (i : nat) (a v : A) :
  nth_error x i = Some a -> Permutation (v :: x) (a :: store x i v).
Proof.
  revert i. induction x as [|b x IH]; intros [|i] Hnth; simpl in *;
    try discriminate.
  - injection Hnth as <-. apply perm_swap.
  - rewrite (perm_swap b v x). rewrite (IH i Hnth). apply perm_swap.
Qed.

(** X16: [Swap(i, j)] with both positions in range exchanges the two
    elements and nothing else: the slice keeps its length and its
    elements, position [i] holds what [j] held and conversely, every
    other position holds what it held, and a second [Swap(i, j)] restores
    the slice.  With a position out of range it panics. *)
Theorem Swap_exchanges (x : list optionComment) (i j : Z) :
  (0 <= i < optionCommentSlice_Len x -> 0 <= j < optionCommentSlice_Len x ->
   exists x',
     optionCommentSlice_Swap x i j = Ok x' /\
     optionCommentSlice_Len x' = optionCommentSlice_Len x /\
     Permutation x x' /\
     at_index x' i = at_index x j /\
     at_index x' j = at_index x i /\
     (forall k, k <> i -> k <> j -> at_index x' k = at_index x k) /\
     optionCommentSlice_Swap x' i j = Ok x) /\
  (i < 0 \/ optionCommentSlice_Len x <= i \/
   j < 0 \/ optionCommentSlice_Len x <= j ->
   optionCommentSlice_Swap x i j = Panic "index out of range").
Proof.
  unfold optionCommentSlice_Len, optionCommentSlice_Swap. split.
  - intros Hi Hj.
    destruct (at_index_in_range x i Hi) as [xi Hxi].
    destruct (at_index_in_range x j Hj) as [xj Hxj].
    rewrite Hxi, Hxj. cbn [bind]. eexists. split; [reflexivity |].
    apply at_index_nth_error in Hxi, Hxj.
    destruct Hxi as [_ Hxi]. destruct Hxj as [_ Hxj].
    assert (Hread : forall k,
      0 <= k ->
      nth_error (store (store x (Z.to_nat i) xj) (Z.to_nat j) xi) (Z.to_nat k)
      = if k =? j then Some xi
        else if k =? i then Some xj
        else nth_error x (Z.to_nat k)).
    { intros k Hk. rewrite !nth_error_store, !length_store.
      destruct (k =? j) eqn:Hkj.
      - replace (Z.to_nat k =? Z.to_nat j)%nat with true
          by (symmetry; apply Nat.eqb_eq; lia).
        replace (Z.to_nat k <? List.length x)%nat with true
          by (symmetry; apply Nat.ltb_lt; lia).
        reflexivity.
      - replace (Z.to_nat k =? Z.to_nat j)%nat with false
          by (symmetry; apply Nat.eqb_neq; lia).
        destruct (k =? i) eqn:Hki.
        + replace (Z.to_nat k =? Z.to_nat i)%nat with true
            by (symmetry; apply Nat.eqb_eq; lia).
          replace (Z.to_nat k <? List.length x)%nat with true
            by (symmetry; apply Nat.ltb_lt; lia).
          reflexivity.
        + replace (Z.to_nat k =? Z.to_nat i)%nat with false
            by (symmetry; apply Nat.eqb_neq; lia).
          reflexivity. }
    assert (Hat : forall k,
      at_index (store (store x (Z.to_nat i) xj) (Z.to_nat j) xi) k
      = if k =? j then Ok xi
        else if k =? i then Ok xj
        else at_index x k).
    { intros k. unfold at_index. destruct (k <? 0) eqn:Hneg.
      - replace (k =? j) with false by lia.
        replace (k =? i) with false by lia. reflexivity.
      - rewrite Hread by lia.
        destruct (k =? j); [reflexivity |]. now destruct (k =? i). }
    assert (Hxi' : at_index x i = Ok xi)
      by (apply at_index_nth_error; split; [lia | assumption]).
    assert (Hxj' : at_index x j = Ok xj)
      by (apply at_index_nth_error; split; [lia | assumption]).
    split; [now rewrite !length_store |].
    split.
    { apply (Permutation_cons_inv (a := xj)).
      rewrite (store_Permutation x (Z.to_nat i) xi xj Hxi).
      apply store_Permutation.
      rewrite nth_error_store.
      destruct (Z.to_nat j =? Z.to_nat i)%nat eqn:Hji; [| exact Hxj].
      replace (Z.to_nat j <? List.length x)%nat with true
        by (symmetry; apply Nat.ltb_lt; lia).
      reflexivity. }
    split.
    { rewrite Hat. destruct (i =? j) eqn:Hij; [| now rewrite Z.eqb_refl].
      apply Z.eqb_eq in Hij. subst j. congruence. }
    split; [now rewrite Hat, Z.eqb_refl |].
    split.
    { intros k Hki Hkj. rewrite Hat.
      replace (k =? j) with false by lia.
      replace (k =? i) with false by lia. reflexivity. }
    rewrite !Hat, !Z.eqb_refl.
    assert (Hati : (if i =? j then Ok xi else Ok xj) = Ok xj).
    { destruct (i =? j) eqn:Hij; [| reflexivity].
      apply Z.eqb_eq in Hij. subst j. congruence. }
    rewrite Hati. cbn [bind]. f_equal.
    apply nth_error_ext. intros n.
    rewrite !nth_error_store, !length_store.
    destruct (n =? Z.to_nat j)%nat eqn:Hnj.
    + apply Nat.eqb_eq in Hnj. subst n.
      replace (Z.to_nat j <? List.length x)%nat with true
        by (symmetry; apply Nat.ltb_lt; lia).
      now rewrite Hxj.
    + destruct (n =? Z.to_nat i)%nat eqn:Hni; [| reflexivity].
      apply Nat.eqb_eq in Hni. subst n.
      replace (Z.to_nat i <? List.length x)%nat with true
        by (symmetry; apply Nat.ltb_lt; lia).
      now rewrite Hxi.
  - intros Hout.
    destruct (Z_lt_dec j 0) as [Hj | Hj];
      [rewrite (at_index_out_of_range x j) by lia; reflexivity |].
    destruct (Z_le_dec (Z.of_nat (List.length x)) j) as [Hj' | Hj'];
      [rewrite (at_index_out_of_range x j) by lia; reflexivity |].
    destruct (at_index_in_range x j) as [xj Hxj]; [lia |].
    rewrite Hxj. cbn [bind].
    rewrite (at_index_out_of_range x i) by lia. reflexivity.
Qed.

Lemma Swap_exchanges_witness :
  0 <= 0 < optionCommentSlice_Len usage_comments /\
  0 <= 2 < optionCommentSlice_Len usage_comments /\
  exists x',
    optionCommentSlice_Swap usage_comments 0 2 = Ok x' /\
    x' = usage_comments_ascending /\
    optionCommentSlice_Swap x' 0 2 = Ok usage_comments.
Proof.
  assert (H0 : 0 <= 0 < optionCommentSlice_Len usage_comments)
    by (unfold optionCommentSlice_Len; simpl; lia).
  assert (H2 : 0 <= 2 < optionCommentSlice_Len usage_comments)
    by (unfold optionCommentSlice_Len; simpl; lia).
  split; [exact H0 |]. split; [exact H2 |].
  destruct (proj1 (Swap_exchanges usage_comments 0 2) H0 H2)
    as [x' [Hswap [_ [_ [_ [_ [_ Hback]]]]]]].
  exists x'. split; [exact Hswap |]. split; [| exact Hback].
  vm_compute in Hswap. now injection Hswap as <-.
Defined.

(** X17: [Less] is the order [sort.Sort] needs.  On positions in range it
    compares the indices of the two comments, the greater index first,
    and so it is irreflexive and transitive, and positions of which
    neither is [Less] than the other hold comments of the same index. *)
Theorem Less_strict_weak_order (x : list optionComment) (i j k : Z)
    (xi xj xk : optionComment) :
  at_index x i = Ok xi -> at_index x j = Ok xj -> at_index x k = Ok xk ->
  optionCommentSlice_Less x i j = Ok (Less xi xj) /\
  (optionCommentSlice_Less x i j = Ok true <-> index xj < index xi) /\
  optionCommentSlice_Less x i i = Ok false /\
  (optionCommentSlice_Less x i j = Ok true ->
   optionCommentSlice_Less x j k = Ok true ->
   optionCommentSlice_Less x i k = Ok true) /\
  (optionCommentSlice_Less x i j = Ok false ->
   optionCommentSlice_Less x j i = Ok false ->
   index xi = index xj).
Proof.
  intros Hi Hj Hk. unfold optionCommentSlice_Less, Less.
  rewrite Hi, Hj, Hk. cbn [bind].
  split; [reflexivity |].
  split.
  { split; intros H.
    - injection H as H. lia.
    - f_equal. lia. }
  split; [f_equal; lia |].
  split.
  - intros Hij Hjk. injection Hij as Hij. injection Hjk as Hjk. f_equal. lia.
  - intros Hij Hji. injection Hij as Hij. injection Hji as Hji. lia.
Qed.

Lemma Less_strict_weak_order_witness :
  optionCommentSlice_Less usage_comments 0 1 = Ok true /\
  optionCommentSlice_Less usage_comments 1 2 = Ok true /\
  optionCommentSlice_Less usage_comments 0 2 = Ok true.
Proof.
  split; [reflexivity |]. split; [reflexivity |].
  apply (Less_strict_weak_order usage_comments 0 1 2
           {| comment := "cannot do this operation"; index := 3 |}
           {| comment := "cannot find this file"; index := 2 |}
           {| comment := "for this option"; index := 1 |});
    reflexivity.
Defined.

(** ** The entry points and the methods *)

(** X18: where [ExitCode(err)] and the method [err.ExitCode()] agree.  On
    an [Error] held by value they always do; the method of a fresh
    [MaybeWrap(w)] returns what [w] resolves to; and on a [*Error] whose
    unset overrides are at the zero value they agree exactly when the
    override is set or the wrapped error resolves to the zero value.  The
    same holds of [Temporary]. *)
Theorem entry_point_and_method (e : Error) (w : error) :
  (ExitCode (val_Error e) = Error_ExitCode e /\
   Temporary (val_Error e) = Error_Temporary e) /\
  (w <> nil_error ->
   option_map Error_ExitCode (MaybeWrap w) = Some (ExitCode w) /\
   option_map Error_Temporary (MaybeWrap w) = Some (Temporary w)) /\
  (overrides_consistent e ->
   (ExitCode (ptr_Error (Some e)) = Error_ExitCode e <->
    isExitCodeSet e = true \/ ExitCode (err e) = 0) /\
   (Temporary (ptr_Error (Some e)) = Error_Temporary e <->
    isTemporarySet e = true \/ Temporary (err e) = false)).
Proof.
  split; [split; reflexivity |].
  split.
  { intros Hw. destruct w; try congruence; split; reflexivity. }
  intros [Hcode Htemporary].
  unfold Error_ExitCode, Error_Temporary, ExitCode_method, Temporary_method.
  unfold ExitCode at 1, Temporary at 1. cbn [unwrapExitCode unwrapTemporary fst].
  split.
  - destruct (isExitCodeSet e).
    + split; auto.
    + rewrite Hcode by reflexivity. split.
      * intros H. right. now symmetry.
      * intros [H | H]; [discriminate | now symmetry].
  - destruct (isTemporarySet e).
    + split; auto.
    + rewrite Htemporary by reflexivity. split.
      * intros H. right. now symmetry.
      * intros [H | H]; [discriminate | now symmetry].
Qed.

Lemma entry_point_and_method_witness :
  let w := foreign "returns exit code: 42" (Some 42) None None in
  w <> nil_error /\
  option_map Error_ExitCode (MaybeWrap w) = Some 42 /\
  ExitCode (ptr_Error (MaybeWrap w)) = 0.
Proof.
  intros w. assert (Hw : w <> nil_error) by discriminate.
  split; [exact Hw |]. split; [| reflexivity].
  exact (proj1 (proj1 (proj2 (entry_point_and_method zero_Error w)) Hw)).
Defined.
